(** * binary_fANOVA_tree: marginal annotations and marginalised queries

    A shallow embedding of [rfr::trees::binary_fANOVA_tree]
    (include/rfr/trees/binary_fanova_tree.hpp) and the properties of its
    three public operations: [precompute_marginals],
    [marginalized_mean_prediction] and [all_split_values].

    The class is a template over [split_t], [num_t] and [index_t].  The
    number type is modelled by exact rationals plus the NaN sentinel
    (rounding and infinities are abstracted), [index_t] by its default
    [unsigned int], and [split_t] by the interface the tree calls. *)

From Stdlib Require Import QArith Qcanon.
From stdpp Require Import base decidable option numbers list sorting.

Local Open Scope Z_scope.

(** ** Outcomes of a member function

    [operator[]] of [std::vector] and [std::deque] has undefined behaviour
    out of range and [assert] aborts; both are [Fault].  A loop that has
    not left after the given number of iterations is [OutOfFuel]. *)

Inductive outcome (A : Type) : Type :=
| Done (a : A)
| Fault
| OutOfFuel.
Arguments Done {A} a.
Arguments Fault {A}.
Arguments OutOfFuel {A}.

Definition is_done {A} (o : outcome A) : bool :=
  match o with Done _ => true | _ => false end.

Definition is_fault {A} (o : outcome A) : bool :=
  match o with Fault => true | _ => false end.

#[global] Instance outcome_ret : MRet outcome := @Done.
#[global] Instance outcome_bind : MBind outcome := λ A B f o,
  match o with
  | Done a => f a
  | Fault => Fault
  | OutOfFuel => OutOfFuel
  end.

#[global] Instance outcome_eq_dec {A} `{EqDecision A} : EqDecision (outcome A).
Proof. solve_decision. Defined.

(** [v[i]] for reading: a fault when [i] is out of range. *)
Definition at_index {A} (v : list A) (i : nat) : outcome A :=
  match v !! i with
  | Some x => Done x
  | None => Fault
  end.

(** [v[i] = x]: a fault when [i] is out of range. *)
Definition assign {A} (v : list A) (i : nat) (x : A) : outcome (list A) :=
  if decide (i < length v)%nat then Done (<[i:=x]> v) else Fault.

(** [v.resize(n)]: keeps the first [n] elements and pads with the
    value-initialised element [d]. *)
Definition resize {A} (n : nat) (d : A) (v : list A) : list A :=
  take n v ++ replicate (n - length v) d.

(** ** [num_t] *)

Inductive num_t : Type :=
| NaN
| Num (q : Qc).

#[global] Instance num_t_eq_dec : EqDecision num_t.
Proof. solve_decision. Defined.

Definition num_of_Z (z : Z) : num_t := Num (Qc_of_Z z).
Definition num_of_nat (n : nat) : num_t := num_of_Z (Z.of_nat n).
Definition num_frac (a : Z) (b : positive) : num_t := Num (Q2Qc (a # b)).

Definition num_zero : num_t := num_of_Z 0.
Definition num_one : num_t := num_of_Z 1.

Definition num_lift2 (f : Qc → Qc → Qc) (x y : num_t) : num_t :=
  match x, y with
  | Num a, Num b => Num (f a b)
  | _, _ => NaN
  end.

Definition num_add : num_t → num_t → num_t := num_lift2 Qcplus.
Definition num_sub : num_t → num_t → num_t := num_lift2 Qcminus.
Definition num_mul : num_t → num_t → num_t := num_lift2 Qcmult.

(** Division by zero has no finite value; the model gives the sentinel. *)
Definition num_div (x y : num_t) : num_t :=
  match x, y with
  | Num a, Num b => if decide (b = 0%Qc) then NaN else Num (a / b)%Qc
  | _, _ => NaN
  end.

(** Comparisons involving NaN are false, as for IEEE numbers. *)
Definition num_ltb (x y : num_t) : bool :=
  match x, y with
  | Num a, Num b => bool_decide (a < b)%Qc
  | _, _ => false
  end.

Definition num_gtb (x y : num_t) : bool := num_ltb y x.

Definition num_eqb (x y : num_t) : bool :=
  match x, y with
  | Num a, Num b => bool_decide (a = b)
  | _, _ => false
  end.

Definition isnan (x : num_t) : bool :=
  match x with NaN => true | Num _ => false end.

(** ** Collaborators of the tree *)

(** A domain: per feature, the two bounds of a continuous feature or the
    categories of a categorical one ([std::vector<std::vector<num_t> >]). *)
Definition subspace_t : Type := list (list num_t).

(** Modelled from the spec: the interface of the split object.  [split_t]
    is a template parameter; the tree uses a split through
    [get_feature_index], [get_num_split_value] and the node's
    [compute_subspaces], which forwards to the split. *)
Class Split (split_t : Type) : Type := {
  get_feature_index : split_t → nat;
  get_num_split_value : split_t → num_t;
  (** Modelled from the spec: the split object's domain-splitting
      operation [compute_subspaces(domain) -> (left_domain, right_domain)],
      declared with the split classes, which are not among the sources. *)
  compute_subspaces : split_t → subspace_t → subspace_t * subspace_t;
  (** Modelled from the spec: the split object's decision function
      [route(value) -> child_selector]; [false] selects child 0 and [true]
      child 1.  The header at hand never calls it. *)
  route : split_t → num_t → bool;
}.

(** Modelled from the spec: the node type, [rfr::nodes::k_ary_node_full<2,
    ...>] of rfr/nodes/k_ary_node.hpp, which is not among the sources, by
    the members the tree reads.  A node object always holds a split and
    two child indices, whether it is a leaf or not. *)
Record node (split_t : Type) : Type := Node {
  is_a_leaf : bool;
  parent : nat;
  get_children : nat * nat;
  get_split : split_t;
  leaf_mean : num_t;
}.
Arguments Node {split_t}.
Arguments is_a_leaf {split_t}.
Arguments parent {split_t}.
Arguments get_children {split_t}.
Arguments get_split {split_t}.
Arguments leaf_mean {split_t}.

Definition get_child_index {split_t} (n : node split_t) (k : nat) : nat :=
  match k with
  | O => fst (get_children n)
  | _ => snd (get_children n)
  end.

(** ** Helpers of [rfr::util] *)

(** Modelled from the spec: [rfr::util::get_non_NAN_indices] (rfr/util.hpp
    is not among the sources): the indices of the entries of the partial
    vector that hold a concrete value. *)
Fixpoint non_NAN_from (i : nat) (v : list num_t) : list nat :=
  match v with
  | [] => []
  | x :: v' =>
      if isnan x then non_NAN_from (S i) v' else i :: non_NAN_from (S i) v'
  end.

Definition get_non_NAN_indices (v : list num_t) : list nat := non_NAN_from 0 v.

(** Modelled from the spec: [rfr::util::any_true]: whether the
    active-variable set meets the given feature indices. *)
Definition any_true (b_vector : list bool) (indices : list nat) : bool :=
  existsb (λ i, default false (b_vector !! i)) indices.

(** Modelled from the spec: [rfr::util::disjunction(source, dest)]: the
    union of [source] into [dest], bit by bit. *)
Fixpoint disjunction (source dest : list bool) : list bool :=
  match dest with
  | [] => []
  | d :: dest' =>
      (d || default false (head source)) :: disjunction (tail source) dest'
  end.

(** Modelled from the spec: [rfr::util::subspace_cardinality]: the product,
    over features, of the interval length for a continuous feature
    (type 0) and of the number of categories for a categorical one. *)
Definition feature_extent (type : nat) (range : list num_t) : num_t :=
  match type with
  | O =>
      match range with
      | lo :: hi :: _ => num_sub hi lo
      | _ => NaN
      end
  | S _ => num_of_nat (length range)
  end.

Fixpoint subspace_cardinality (subspace : subspace_t) (types : list nat) : num_t :=
  match types with
  | [] => num_one
  | ty :: types' =>
      num_mul (feature_extent ty (default [] (head subspace)))
              (subspace_cardinality (tail subspace) types')
  end.

(** Modelled from the spec: [rfr::util::weighted_running_statistics]: a
    running weighted-mean accumulator; its mean is the sentinel when no
    contribution was ever added. *)
Record weighted_running_statistics : Type := Stats {
  contributions : nat;
  sum_of_weights : num_t;
  weighted_sum : num_t;
}.

Definition stats_empty : weighted_running_statistics :=
  Stats 0 num_zero num_zero.

Definition stats_push (s : weighted_running_statistics) (x weight : num_t)
  : weighted_running_statistics :=
  Stats (S (contributions s))
        (num_add (sum_of_weights s) weight)
        (num_add (weighted_sum s) (num_mul x weight)).

Definition stats_mean (s : weighted_running_statistics) : num_t :=
  match contributions s with
  | O => NaN
  | S _ => num_div (weighted_sum s) (sum_of_weights s)
  end.

(** Ascending order by the comparison [<] that [std::sort] uses: [y] may
    follow [x] when [y < x] is false. *)
Definition num_le (x y : num_t) : Prop := num_ltb y x = false.

#[global] Instance num_le_dec : RelDecision num_le.
Proof. intros x y. unfold num_le. apply _. Defined.

(** [std::sort(v.begin(), v.end())] *)
Definition std_sort (v : list num_t) : list num_t := merge_sort num_le v.

(** [v.resize(k); std::iota(v.begin(), v.end(), 0)] *)
Definition iota (k : nat) : list num_t := num_of_nat <$> seq 0 k.

(** A [for] loop over the elements of a container, stopping at a fault. *)
Fixpoint for_each {A S} (body : S → A → outcome S) (s : S) (v : list A)
  : outcome S :=
  match v with
  | [] => Done s
  | x :: v' => s' ← body s x; for_each body s' v'
  end.

(** ** The class [binary_fANOVA_tree]

    [the_nodes] belongs to the base class [k_ary_random_tree] and is never
    written by the derived class; the four data members of the derived
    class are the state that its methods read and write. *)

Record fanova_state : Type := FanovaState {
  subspace_sizes : list num_t;
  marginal_prediction : list num_t;
  active_variables : list (list bool);
  split_values : list (list num_t);
}.

#[global] Instance fanova_state_eq_dec : EqDecision fanova_state.
Proof. solve_decision. Defined.

(** The constructor: [super(), split_values(0)]. *)
Definition fresh : fanova_state := FanovaState [] [] [] [].

Definition set_subspace_sizes (v : list num_t) (self : fanova_state) :=
  FanovaState v (marginal_prediction self) (active_variables self)
              (split_values self).
Definition set_marginal_prediction (v : list num_t) (self : fanova_state) :=
  FanovaState (subspace_sizes self) v (active_variables self)
              (split_values self).
Definition set_active_variables (v : list (list bool)) (self : fanova_state) :=
  FanovaState (subspace_sizes self) (marginal_prediction self) v
              (split_values self).
Definition set_split_values (v : list (list num_t)) (self : fanova_state) :=
  FanovaState (subspace_sizes self) (marginal_prediction self)
              (active_variables self) v.

(** [index_t] is [unsigned int]. *)
Definition index_modulus : Z := 2 ^ 32.
Definition to_index_t (z : Z) : Z := z mod index_modulus.

Section Tree.
Context {split_t : Type} `{Split split_t}.

(** *** [marginalized_mean_prediction] (lines 89-119)

    The deque is a list whose head is [back()].  The block of case 2
    (lines 109-112) holds comments only, so nothing is ever pushed on the
    deque and the loop is a recursion on it. *)

Fixpoint marginalized_loop (self : fanova_state) (active_features : list nat)
    (active_nodes : list nat) (stats : weighted_running_statistics)
  : outcome weighted_running_statistics :=
  match active_nodes with
  | [] => Done stats
  | i :: active_nodes' =>
      size_i ← at_index (subspace_sizes self) i;
      if num_eqb size_i num_zero
      then marginalized_loop self active_features active_nodes' stats
      else
        vars_i ← at_index (active_variables self) i;
        if any_true vars_i active_features
        then marginalized_loop self active_features active_nodes' stats
        else
          pred_i ← at_index (marginal_prediction self) i;
          marginalized_loop self active_features active_nodes'
                            (stats_push stats pred_i size_i)
  end.

Definition marginalized_mean_prediction (self : fanova_state)
    (feature_vector : list num_t) : outcome num_t :=
  let active_features := get_non_NAN_indices feature_vector in
  stats ← marginalized_loop self active_features [0%nat] stats_empty;
  Done (stats_mean stats).

(** *** [precompute_marginals] (lines 125-202)

    Four names used by the function are declared nowhere: [i] in the
    header of the second loop, [subspace_size], [children_subspace_sizes]
    and [NaN].  A read needs a value: [subspace_size[c]] reads the member
    [subspace_sizes] and [NaN] is the sentinel.  A write to a name changes
    that name and no other: [--i] leaves [node_index] alone, and
    [children_subspace_sizes +=] leaves [children_subspace_size] alone.
    Line 155 hands the whole table [subspaces] to a helper that takes one
    domain; the model hands it the entry of the node at hand. *)

(** Lines 154-165, one iteration of the down pass. *)
Definition down_pass_body (pcs : subspace_t) (types : list nat)
    (the_nodes : list (node split_t))
    (st : list subspace_t * fanova_state) (i : nat)
  : outcome (list subspace_t * fanova_state) :=
  let '(subspaces, self) := st in
  let num_features := length types in
  n ← at_index the_nodes i;
  own ← at_index subspaces i;
  sizes ← assign (subspace_sizes self) i (subspace_cardinality own types);
  let subss := compute_subspaces (get_split n) pcs in
  subspaces ← assign subspaces (get_child_index n 0) (fst subss);
  subspaces ← assign subspaces (get_child_index n 1) (snd subss);
  (* std::vector<bool>(0, num_features): count 0, value num_features *)
  vars ← assign (active_variables self) i
           (replicate 0%nat (bool_decide (num_features ≠ 0%nat)));
  subspaces ← assign subspaces i [];
  Done (subspaces, set_active_variables vars (set_subspace_sizes sizes self)).

(** Lines 153-166: [i] runs over the node indices in ascending order.
    This is the loop on a node array of fewer than 2^32 entries; from
    2^32 entries on, the [unsigned int] index wraps before it reaches the
    node count and the loop of the source does not end, which this
    definition does not follow. *)
Definition down_pass (pcs : subspace_t) (types : list nat)
    (the_nodes : list (node split_t))
    (st : list subspace_t * fanova_state)
  : outcome (list subspace_t * fanova_state) :=
  for_each (down_pass_body pcs types the_nodes) st
           (seq 0 (length the_nodes)).

(** Lines 187-190, the body of the loop over the two children.  The
    locals are [children_subspace_size], declared on line 184, and the
    name [children_subspace_sizes] that line 188 adds to. *)
Record marginal_locals : Type := Locals {
  children_subspace_size : num_t;
  children_subspace_sizes : num_t;
  predictions : list num_t;
}.

Definition add_child (node_index : nat) (self : fanova_state)
    (l : marginal_locals) (child_index : nat) : outcome marginal_locals :=
  size_c ← at_index (subspace_sizes self) child_index;
  if num_gtb size_c num_zero then
    pred_c ← at_index (predictions l) child_index;
    pred_n ← at_index (predictions l) node_index;
    preds ← assign (predictions l) node_index
              (num_add pred_n (num_mul pred_c size_c));
    Done (Locals (children_subspace_size l)
                 (num_add (children_subspace_sizes l) size_c)
                 preds)
  else Done l.

(** Lines 183-199. *)
Definition compute_marginal (n : node split_t) (node_index : nat)
    (self : fanova_state) : outcome fanova_state :=
  preds ← assign (marginal_prediction self) node_index num_zero;
  let l := Locals num_zero num_zero preds in
  l ← for_each (add_child node_index self) l
        [fst (get_children n); snd (get_children n)];
  pred_n ← at_index (predictions l) node_index;
  preds ← assign (predictions l) node_index
            (if num_gtb (children_subspace_size l) num_zero
             then num_div pred_n (children_subspace_size l)
             else NaN);
  sizes ← assign (subspace_sizes self) node_index (children_subspace_size l);
  Done (set_subspace_sizes sizes (set_marginal_prediction preds self)).

(** Lines 176-180. *)
Definition record_active (n : node split_t) (node_index : nat)
    (self : fanova_state) : outcome fanova_state :=
  vars_n ← at_index (active_variables self) node_index;
  vars_n ← assign vars_n (get_feature_index (get_split n)) true;
  vars ← assign (active_variables self) node_index vars_n;
  let parent_index := parent n in
  source ← at_index vars node_index;
  dest ← at_index vars parent_index;
  vars ← assign vars parent_index (disjunction source dest);
  Done (set_active_variables vars self).

(** Lines 170-200, the body of the second loop. *)
Definition bottom_up_body (the_nodes : list (node split_t))
    (self : fanova_state) (node_index : nat) : outcome fanova_state :=
  n ← at_index the_nodes node_index;
  if is_a_leaf n then
    preds ← assign (marginal_prediction self) node_index (leaf_mean n);
    Done (set_marginal_prediction preds self)
  else
    self ← record_active n node_index self;
    compute_marginal n node_index self.

(** The condition of line 169, [node_index >= 0], on an [unsigned int]. *)
Definition bottom_up_guard (node_index : Z) : bool := 0 <=? node_index.

(** Line 169: [for (index_t node_index = size - 1; node_index >= 0; --i)]. *)
Fixpoint bottom_up_loop (fuel : nat) (the_nodes : list (node split_t))
    (node_index : Z) (self : fanova_state) : outcome fanova_state :=
  match fuel with
  | O => OutOfFuel
  | S fuel' =>
      if bottom_up_guard node_index then
        self ← bottom_up_body the_nodes self (Z.to_nat node_index);
        bottom_up_loop fuel' the_nodes node_index self
      else Done self
  end.

(** Lines 138-149: the assertion, the three [resize] calls and the table
    of per-node domains with the caller's domain at the root. *)
Definition precompute_setup (pcs : subspace_t) (types : list nat)
    (the_nodes : list (node split_t)) (self : fanova_state)
  : outcome (list subspace_t * fanova_state) :=
  if decide (length pcs = length types) then
    let size := length the_nodes in
    let self :=
      FanovaState (resize size num_zero (subspace_sizes self))
                  (resize size num_zero (marginal_prediction self))
                  (resize size [] (active_variables self))
                  (split_values self) in
    subspaces ← assign (replicate size ([] : subspace_t)) 0 pcs;
    Done (subspaces, self)
  else Fault.

(** Lines 138-166: everything before the second loop. *)
Definition top_down (pcs : subspace_t) (types : list nat)
    (the_nodes : list (node split_t)) (self : fanova_state)
  : outcome (list subspace_t * fanova_state) :=
  st ← precompute_setup pcs types the_nodes self;
  down_pass pcs types the_nodes st.

Definition precompute_marginals (fuel : nat) (lower_cutoff upper_cutoff : num_t)
    (pcs : subspace_t) (types : list nat)
    (the_nodes : list (node split_t)) (self : fanova_state)
  : outcome fanova_state :=
  st ← top_down pcs types the_nodes self;
  bottom_up_loop fuel the_nodes
                 (to_index_t (Z.of_nat (length the_nodes) - 1)) (snd st).

(** *** [all_split_values] (lines 227-253) *)

(** Lines 234-246, the body of the loop over the nodes. *)
Definition collect_split (types : list nat) (values : list (list num_t))
    (n : node split_t) : outcome (list (list num_t)) :=
  if is_a_leaf n then Done values
  else
    let s := get_split n in
    let fi := get_feature_index s in
    type_fi ← at_index types fi;
    entry ← at_index values fi;
    if bool_decide (0 < type_fi)%nat && bool_decide (length entry = 0%nat)
    then assign values fi (iota type_fi)
    else assign values fi (entry ++ [get_num_split_value s]).

(** The method returns a copy of the member; the outcome is the returned
    value paired with the object after the call. *)
Definition all_split_values (types : list nat)
    (the_nodes : list (node split_t)) (self : fanova_state)
  : outcome (list (list num_t) * fanova_state) :=
  if bool_decide (length (split_values self) = 0%nat) then
    let values := resize (length types) [] (split_values self) in
    values ← for_each (collect_split types) values the_nodes;
    let values := std_sort <$> values in
    Done (values, set_split_values values self)
  else Done (split_values self, self).

End Tree.

(** ** What the operations are compared with *)

Section Reference.
Context {split_t : Type} `{Split split_t}.

(** The plain tree prediction: from the root, evaluate the routing rule
    of each internal node on the fixed value of its feature, down to a
    leaf, and take that leaf's mean. *)
Fixpoint descend (fuel : nat) (the_nodes : list (node split_t))
    (feature_vector : list num_t) (i : nat) : option num_t :=
  match fuel with
  | O => None
  | S fuel' =>
      n ← the_nodes !! i;
      if is_a_leaf n then Some (leaf_mean n)
      else
        value ← feature_vector !! get_feature_index (get_split n);
        descend fuel' the_nodes feature_vector
                (get_child_index n (if route (get_split n) value then 1 else 0))
  end.

Definition tree_prediction (the_nodes : list (node split_t))
    (feature_vector : list num_t) : option num_t :=
  descend (length the_nodes) the_nodes feature_vector 0.

(** The children of [n] that a partial vector can reach: the routed one
    when the split feature of [n] is fixed, both otherwise. *)
Definition selects (n : node split_t) (feature_vector : list num_t)
    (child : nat) : Prop :=
  match feature_vector !! get_feature_index (get_split n) with
  | Some (Num v) =>
      child = get_child_index n (if route (get_split n) (Num v) then 1 else 0)
  | _ => child = get_child_index n 0 ∨ child = get_child_index n 1
  end.

Inductive reachable (the_nodes : list (node split_t))
    (feature_vector : list num_t) : nat → Prop :=
| reachable_root : reachable the_nodes feature_vector 0
| reachable_child i n child :
    reachable the_nodes feature_vector i →
    the_nodes !! i = Some n →
    is_a_leaf n = false →
    selects n feature_vector child →
    reachable the_nodes feature_vector child.

(** A leaf mean that the cutoffs exclude. *)
Definition outside (lower_cutoff upper_cutoff mean : num_t) : bool :=
  num_ltb mean lower_cutoff || num_gtb mean upper_cutoff.

(** The weight a child adds to its parent: its size when that is
    strictly positive, nothing otherwise. *)
Definition positive_part (size : num_t) : num_t :=
  if num_gtb size num_zero then size else num_zero.

Definition has_bit (vars : list bool) (f : nat) : Prop := vars !! f = Some true.

(** The annotation invariants of the data model, for given cutoffs: there
    is a root, the three arrays are parallel to the node array, children
    come after their parent, an excluded leaf has size zero, the size of an internal node
    is the sum of the positive sizes of its children, and its
    active-variable set holds its own split feature and the sets of both
    children. *)
Record annotated (lower_cutoff upper_cutoff : num_t)
    (the_nodes : list (node split_t)) (self : fanova_state) : Prop := {
  ann_root : (0 < length the_nodes)%nat;
  ann_sizes : length (subspace_sizes self) = length the_nodes;
  ann_preds : length (marginal_prediction self) = length the_nodes;
  ann_vars : length (active_variables self) = length the_nodes;
  ann_children : ∀ i n k,
    the_nodes !! i = Some n → is_a_leaf n = false →
    (i < get_child_index n k < length the_nodes)%nat;
  ann_cutoff : ∀ i n,
    the_nodes !! i = Some n → is_a_leaf n = true →
    outside lower_cutoff upper_cutoff (leaf_mean n) = true →
    subspace_sizes self !! i = Some num_zero;
  ann_conservation : ∀ i n s0 s1,
    the_nodes !! i = Some n → is_a_leaf n = false →
    subspace_sizes self !! get_child_index n 0 = Some s0 →
    subspace_sizes self !! get_child_index n 1 = Some s1 →
    subspace_sizes self !! i = Some (num_add (positive_part s0) (positive_part s1));
  ann_active : ∀ i n vars,
    the_nodes !! i = Some n → is_a_leaf n = false →
    active_variables self !! i = Some vars →
    has_bit vars (get_feature_index (get_split n)) ∧
    ∀ k vars_c f,
      active_variables self !! get_child_index n k = Some vars_c →
      has_bit vars_c f → has_bit vars f;
}.

(** The domain of node [i] as restricted along the path from the root:
    the root has the caller's domain, and a child has the part of its
    parent's domain that the parent's split hands to it. *)
Fixpoint path_domain (fuel : nat) (the_nodes : list (node split_t))
    (pcs : subspace_t) (i : nat) : subspace_t :=
  match fuel, i with
  | S fuel', S _ =>
      match the_nodes !! i with
      | Some n =>
          match the_nodes !! parent n with
          | Some p =>
              let subss :=
                compute_subspaces (get_split p)
                                  (path_domain fuel' the_nodes pcs (parent n)) in
              if decide (get_child_index p 0 = i) then fst subss else snd subss
          | None => pcs
          end
      | None => pcs
      end
  | _, _ => pcs
  end.

(** The thresholds found by scanning every internal node that splits on
    feature [f], in node order. *)
Definition splits_on (f : nat) (n : node split_t) : bool :=
  negb (is_a_leaf n) && bool_decide (get_feature_index (get_split n) = f).

Definition scan_thresholds (the_nodes : list (node split_t)) (f : nat)
  : list num_t :=
  (λ n, get_num_split_value (get_split n)) <$> List.filter (splits_on f) the_nodes.

(** What the loop of [all_split_values] has collected for a feature of
    the given type once the nodes with the given thresholds have been
    scanned: the thresholds themselves for a continuous feature; for a
    categorical one nothing before the first split, the category range
    [0..k-1] at the first, and the split value of every later one
    appended to that. *)
Definition catalog_entry (type : nat) (thresholds : list num_t) : list num_t :=
  match type, thresholds with
  | O, _ => thresholds
  | S _, [] => []
  | S _, _ :: later => iota type ++ later
  end.

Definition scanned (types : list nat) (the_nodes : list (node split_t))
  : list (list num_t) :=
  imap (λ f type, catalog_entry type (scan_thresholds the_nodes f)) types.

End Reference.

(** ** A concrete split type and concrete trees *)

(** Modelled from the spec: a split on one feature, standing for the
    split classes that are not among the sources.  A continuous split
    cuts the interval of its feature at the threshold and routes values
    below the threshold to child 0; a categorical split hands the listed
    categories to child 0 and the others to child 1. *)
Record axis_split : Type := AxisSplit {
  feature : nat;
  threshold : num_t;
  left_categories : list num_t;
}.

Definition axis_compute_subspaces (s : axis_split) (domain : subspace_t)
  : subspace_t * subspace_t :=
  let range := default [] (domain !! feature s) in
  match left_categories s with
  | [] =>
      match range with
      | lo :: hi :: _ =>
          (<[feature s := [lo; threshold s]]> domain,
           <[feature s := [threshold s; hi]]> domain)
      | _ => (domain, domain)
      end
  | cats =>
      (<[feature s := List.filter (λ c, bool_decide (c ∈ cats)) range]> domain,
       <[feature s := List.filter (λ c, negb (bool_decide (c ∈ cats))) range]> domain)
  end.

Definition axis_route (s : axis_split) (value : num_t) : bool :=
  match left_categories s with
  | [] => negb (num_ltb value (threshold s))
  | cats => negb (bool_decide (value ∈ cats))
  end.

#[global] Instance axis_split_Split : Split axis_split := {
  get_feature_index := feature;
  get_num_split_value := threshold;
  compute_subspaces := axis_compute_subspaces;
  route := axis_route;
}.

(** The split object held by a leaf. *)
Definition leaf_split : axis_split := AxisSplit 0 NaN [].

Definition leaf (parent_index : nat) (mean : num_t) : node axis_split :=
  Node true parent_index (0%nat, 0%nat) leaf_split mean.

Definition internal (parent_index : nat) (f : nat) (value : num_t)
    (child0 child1 : nat) : node axis_split :=
  Node false parent_index (child0, child1) (AxisSplit f value []) NaN.

(** The tree of the spec's scenario: feature 0 split at 0.5 into leaves
    with means 1 (below) and 3 (from 0.5 on), over the domain [0,1]. *)
Definition stump : list (node axis_split) :=
  [ internal 0 0 (num_frac 1 2) 1 2; leaf 0 (num_of_Z 1); leaf 0 (num_of_Z 3) ].

Definition unit_domain : subspace_t := [[num_of_Z 0; num_of_Z 1]].

(** The annotations the spec's scenario lists for [stump] without
    exclusion: sizes 1, 0.5, 0.5 and predictions 2, 1, 3. *)
Definition stump_annotations : fanova_state :=
  FanovaState [num_of_Z 1; num_frac 1 2; num_frac 1 2]
              [num_of_Z 2; num_of_Z 1; num_of_Z 3]
              [[true]; [false]; [false]]
              [].

(** The annotations the spec's scenario lists for [stump] under the
    cutoffs [2, 4]: the left leaf is excluded. *)
Definition stump_cut_annotations : fanova_state :=
  FanovaState [num_frac 1 2; num_of_Z 0; num_frac 1 2]
              [num_of_Z 3; num_of_Z 1; num_of_Z 3]
              [[true]; [false]; [false]]
              [].

(** What the code has stored for [stump] after the down pass, with the
    table of per-node domains it leaves behind. *)
Definition stump_table : list subspace_t := [[[NaN; num_of_Z 1]]; []; []].

Definition stump_after_down : fanova_state :=
  FanovaState [num_of_Z 1; num_frac 1 2; num_frac 1 2]
              [num_of_Z 0; num_of_Z 0; num_of_Z 0]
              [[]; []; []]
              [].

(** ... after the body of the second loop has run on node 2 ... *)
Definition stump_spinning : fanova_state :=
  FanovaState [num_of_Z 1; num_frac 1 2; num_frac 1 2]
              [num_of_Z 0; num_of_Z 0; num_of_Z 3]
              [[]; []; []]
              [].

(** ... and after it has run on both leaves. *)
Definition stump_after_leaves : fanova_state :=
  FanovaState [num_of_Z 1; num_frac 1 2; num_frac 1 2]
              [num_of_Z 0; num_of_Z 1; num_of_Z 3]
              [[]; []; []]
              [].

(** What lines 183-199 make of [stump_after_leaves] at the root. *)
Definition stump_root_marginal : fanova_state :=
  FanovaState [num_of_Z 0; num_frac 1 2; num_frac 1 2]
              [NaN; num_of_Z 1; num_of_Z 3]
              [[]; []; []]
              [].

(** A tree of depth 2: the root splits feature 0 at 0.5, its left child
    (node 1) splits feature 0 again at 0.25. *)
Definition two_level : list (node axis_split) :=
  [ internal 0 0 (num_frac 1 2) 1 2;
    internal 0 0 (num_frac 1 4) 3 4;
    leaf 0 (num_of_Z 3);
    leaf 1 (num_of_Z 1);
    leaf 1 (num_of_Z 2) ].

(** What the code has stored for [two_level] after the down pass. *)
Definition two_level_table : list subspace_t :=
  [[[NaN; num_of_Z 1]]; []; []; []; []].

Definition two_level_after_down : fanova_state :=
  FanovaState [num_of_Z 1; num_frac 1 2; num_frac 1 2; num_frac 1 4; num_frac 3 4]
              [num_of_Z 0; num_of_Z 0; num_of_Z 0; num_of_Z 0; num_of_Z 0]
              [[]; []; []; []; []]
              [].

(** A tree whose two internal nodes both split the categorical feature 0
    (two categories): the root hands category 0 to node 1, which splits
    again. *)
Definition twice_split : list (node axis_split) :=
  [ Node false 0 (1%nat, 2%nat) (AxisSplit 0 NaN [num_of_Z 0]) NaN;
    Node false 0 (3%nat, 4%nat) (AxisSplit 0 NaN [num_of_Z 0]) NaN;
    leaf 0 (num_of_Z 3);
    leaf 1 (num_of_Z 1);
    leaf 1 (num_of_Z 2) ].

(** A tree that is a single leaf, and a domain of zero volume. *)
Definition single_leaf : list (node axis_split) := [ leaf 0 (num_of_Z 1) ].

Definition point_domain : subspace_t := [[num_of_Z 0; num_of_Z 0]].

(** What the code has stored for [single_leaf] over [point_domain] once
    the down pass and the body of the second loop have run on the leaf. *)
Definition single_leaf_annotations : fanova_state :=
  FanovaState [num_of_Z 0] [num_of_Z 1] [[]] [].

(** ** The accessors and the conditions of a call *)

(** [get_subspace_size] (lines 204-206). *)
Definition get_subspace_size (self : fanova_state) (node_index : nat)
  : outcome num_t :=
  at_index (subspace_sizes self) node_index.

(** [get_vars] (lines 208-210). *)
Definition get_vars (self : fanova_state) (node_index : nat)
  : outcome (list bool) :=
  at_index (active_variables self) node_index.

(** Both child indices of every node object, leaf or not, are indices of
    the node array: what lines 158-159 need of a node. *)
Definition children_in_range {split_t : Type} (the_nodes : list (node split_t))
  : Prop :=
  Forall (λ n, (fst (get_children n) < length the_nodes)%nat ∧
               (snd (get_children n) < length the_nodes)%nat) the_nodes.

(** What lines 138-166 need of their arguments: the assertion of line
    138, a root for line 149, and child indices in range. *)
Definition well_posed {split_t : Type} (pcs : subspace_t) (types : list nat)
    (the_nodes : list (node split_t)) : Prop :=
  length pcs = length types ∧ (0 < length the_nodes)%nat ∧
  children_in_range the_nodes.

#[global] Instance well_posed_dec {split_t : Type} (pcs : subspace_t)
    (types : list nat) (the_nodes : list (node split_t)) :
  Decision (well_posed pcs types the_nodes).
Proof. unfold well_posed, children_in_range. apply _. Defined.

(** The domain that lines 157-159 leave in the table for the child [c]
    of the node [n]: the second part of what the split of [n] makes of
    the caller's domain when [c] is child 1 (written last), the first
    part otherwise. *)
Definition handed_domain {split_t : Type} `{Split split_t}
    (n : node split_t) (pcs : subspace_t) (c : nat) : subspace_t :=
  if decide (snd (get_children n) = c)
  then snd (compute_subspaces (get_split n) pcs)
  else fst (compute_subspaces (get_split n) pcs).

(** The three containers the down pass writes have one entry per node. *)
Definition sized {split_t : Type} (the_nodes : list (node split_t))
    (st : list subspace_t * fanova_state) : Prop :=
  length (fst st) = length the_nodes ∧
  length (subspace_sizes (snd st)) = length the_nodes ∧
  length (active_variables (snd st)) = length the_nodes.

(** ** Basic facts about outcomes and containers *)

Lemma bind_Done {A B} (m : outcome A) (f : A → outcome B) (b : B) :
  m ≫= f = Done b ↔ ∃ a, m = Done a ∧ f a = Done b.
Proof.
  destruct m as [a| |]; simpl; split.
  - intros Hf. by exists a.
  - by intros (a' & [= <-] & Hf).
  - discriminate.
  - by intros (a' & [=] & _).
  - discriminate.
  - by intros (a' & [=] & _).
Qed.

Lemma at_index_Done {A} (v : list A) (i : nat) (x : A) :
  at_index v i = Done x ↔ v !! i = Some x.
Proof.
  unfold at_index. destruct (v !! i); split; intros Heq;
    by (congruence || discriminate).
Qed.

Lemma assign_Done {A} (v v' : list A) (i : nat) (x : A) :
  assign v i x = Done v' ↔ (i < length v)%nat ∧ v' = <[i:=x]> v.
Proof.
  unfold assign. case_decide; split.
  - by intros [= <-].
  - by intros [_ ->].
  - discriminate.
  - by intros [? _].
Qed.

Lemma assign_empty_faults {A} (i : nat) (x : A) : assign [] i x = Fault.
Proof. unfold assign. case_decide; [simpl in *; lia | done]. Qed.

(** Inversion of a successful run, one statement at a time. *)
Ltac outcome_inv :=
  repeat match goal with
  | Hrun : _ ≫= _ = Done _ |- _ =>
      apply bind_Done in Hrun; destruct Hrun as (? & ? & Hrun)
  | Hrun : at_index _ _ = Done _ |- _ => apply at_index_Done in Hrun
  | Hrun : assign _ _ _ = Done _ |- _ =>
      apply assign_Done in Hrun; destruct Hrun as [? ->]
  end; simplify_eq.

Lemma to_index_t_nonneg (z : Z) : 0 ≤ to_index_t z.
Proof. unfold to_index_t, index_modulus. apply Z.mod_pos_bound. lia. Qed.

Section Precompute.
Context {split_t : Type} `{Split split_t}.

(** ** The second loop of [precompute_marginals] *)

Lemma bottom_up_guard_index (z : Z) : bottom_up_guard (to_index_t z) = true.
Proof. unfold bottom_up_guard. apply Z.leb_le, to_index_t_nonneg. Qed.

Lemma bottom_up_loop_not_done (fuel : nat) (the_nodes : list (node split_t))
    (node_index : Z) (self : fanova_state) :
  0 ≤ node_index →
  is_done (bottom_up_loop fuel the_nodes node_index self) = false.
Proof.
  intros Hidx. revert self.
  induction fuel as [|fuel IH]; intros self; simpl; [done|].
  unfold bottom_up_guard. rewrite (proj2 (Z.leb_le _ _) Hidx).
  destruct (bottom_up_body _ _ _); simpl; auto.
Qed.

(** Once the body maps the stored arrays to themselves, the loop turns
    for ever. *)
Lemma bottom_up_loop_stuck (fuel : nat) (the_nodes : list (node split_t))
    (node_index : Z) (self : fanova_state) :
  0 ≤ node_index →
  bottom_up_body the_nodes self (Z.to_nat node_index) = Done self →
  bottom_up_loop fuel the_nodes node_index self = OutOfFuel.
Proof.
  intros Hidx Hfix. induction fuel as [|fuel IH]; simpl; [done|].
  unfold bottom_up_guard. rewrite (proj2 (Z.leb_le _ _) Hidx).
  by rewrite Hfix.
Qed.

(** ** The down pass *)

Lemma down_pass_body_vars pcs types (the_nodes : list (node split_t))
    subspaces self subspaces' self' i :
  down_pass_body pcs types the_nodes (subspaces, self) i
    = Done (subspaces', self') →
  (i < length (active_variables self))%nat ∧
  active_variables self' = <[i:=[]]> (active_variables self).
Proof.
  unfold down_pass_body. intros Hrun. outcome_inv. by simpl.
Qed.

Lemma down_pass_indices_vars pcs types (the_nodes : list (node split_t))
    (indices : list nat) st st' :
  for_each (down_pass_body pcs types the_nodes) st indices = Done st' →
  length (active_variables (snd st')) = length (active_variables (snd st)) ∧
  ∀ i, (i ∈ indices → active_variables (snd st') !! i = Some []) ∧
       (i ∉ indices →
        active_variables (snd st') !! i = active_variables (snd st) !! i).
Proof.
  revert st. induction indices as [|j indices IH]; intros st Hrun; simpl in Hrun.
  - injection Hrun as <-. split; [done|]. intros i. split; [|done].
    by intros ?%elem_of_nil.
  - apply bind_Done in Hrun. destruct Hrun as ([subspaces1 self1] & Hbody & Hrest).
    destruct st as [subspaces self].
    apply down_pass_body_vars in Hbody. destruct Hbody as [Hj Hvars].
    apply IH in Hrest. destruct Hrest as [Hlen Hrest]. simpl in *.
    rewrite Hvars, length_insert in Hlen. split; [done|].
    intros i. destruct (Hrest i) as [Hin Hout]. split.
    + intros [->|Hi]%elem_of_cons; [|by auto].
      destruct (decide (j ∈ indices)) as [Hi|Hi]; [by auto|].
      rewrite (Hout Hi), Hvars. by apply list_lookup_insert_eq.
    + intros Hi. apply not_elem_of_cons in Hi. destruct Hi as [Hne Hi].
      rewrite (Hout Hi), Hvars. by apply list_lookup_insert_ne.
Qed.

Lemma down_pass_vars_empty pcs types (the_nodes : list (node split_t)) st st' :
  down_pass pcs types the_nodes st = Done st' →
  ∀ i, (i < length the_nodes)%nat → active_variables (snd st') !! i = Some [].
Proof.
  unfold down_pass. intros Hrun i Hi.
  apply down_pass_indices_vars in Hrun. destruct Hrun as [_ Hrun].
  apply (Hrun i), elem_of_seq. lia.
Qed.

(** ** The body of the second loop at an internal node *)

Lemma record_active_empty_faults (n : node split_t) (node_index : nat)
    (self : fanova_state) :
  active_variables self !! node_index = Some [] →
  record_active n node_index self = Fault.
Proof.
  intros Hvars. unfold record_active, at_index. rewrite Hvars.
  cbn [mbind outcome_bind]. by rewrite assign_empty_faults.
Qed.

Lemma add_child_keeps_size node_index self l child l' :
  add_child node_index self l child = Done l' →
  children_subspace_size l' = children_subspace_size l ∧
  length (predictions l') = length (predictions l).
Proof.
  unfold add_child. intros Hrun.
  apply bind_Done in Hrun. destruct Hrun as (size_c & _ & Hrun).
  destruct (num_gtb size_c num_zero).
  - outcome_inv. simpl. by rewrite length_insert.
  - by injection Hrun as <-.
Qed.

Lemma add_children_keep_size node_index self l children l' :
  for_each (add_child node_index self) l children = Done l' →
  children_subspace_size l' = children_subspace_size l ∧
  length (predictions l') = length (predictions l).
Proof.
  revert l. induction children as [|c children IH]; intros l Hrun; simpl in Hrun.
  - by injection Hrun as <-.
  - apply bind_Done in Hrun. destruct Hrun as (l1 & Hc & Hrest).
    apply add_child_keeps_size in Hc. apply IH in Hrest.
    destruct Hc as [<- <-]. done.
Qed.

(** Whatever the children hold, lines 183-199 store size zero and the
    sentinel: line 188 adds to [children_subspace_sizes], and lines 192 to
    199 read [children_subspace_size]. *)
Lemma compute_marginal_stores_zero (n : node split_t) (node_index : nat)
    (self self' : fanova_state) :
  compute_marginal n node_index self = Done self' →
  subspace_sizes self' !! node_index = Some num_zero ∧
  marginal_prediction self' !! node_index = Some NaN.
Proof.
  unfold compute_marginal. intros Hrun.
  apply bind_Done in Hrun. destruct Hrun as (preds & Hpreds & Hrun).
  apply bind_Done in Hrun. destruct Hrun as (l & Hloop & Hrun).
  apply add_children_keep_size in Hloop. simpl in Hloop.
  destruct Hloop as [Hsize Hlen]. rewrite Hsize in Hrun.
  outcome_inv. simpl. split.
  - by apply list_lookup_insert_eq.
  - replace (num_gtb num_zero num_zero) with false by (symmetry; compute_done).
    by apply list_lookup_insert_eq.
Qed.

End Precompute.

(** ** [precompute_marginals] on the scenario trees *)

Lemma stump_top_down :
  top_down unit_domain [0%nat] stump fresh = Done (stump_table, stump_after_down).
Proof. compute_done. Qed.

Lemma stump_leaf_2 :
  bottom_up_body stump stump_after_down 2 = Done stump_spinning.
Proof. compute_done. Qed.

Lemma stump_leaf_2_again :
  bottom_up_body stump stump_spinning 2 = Done stump_spinning.
Proof. compute_done. Qed.

Lemma stump_leaf_1 :
  bottom_up_body stump stump_spinning 1 = Done stump_after_leaves.
Proof. compute_done. Qed.

Lemma stump_spins (fuel : nat) :
  precompute_marginals fuel NaN NaN unit_domain [0%nat] stump fresh = OutOfFuel.
Proof.
  unfold precompute_marginals. rewrite stump_top_down.
  cbn [mbind outcome_bind snd].
  change (to_index_t (Z.of_nat (length stump) - 1)) with 2.
  destruct fuel as [|fuel]; [done|].
  cbn [bottom_up_loop bottom_up_guard Z.leb Z.compare].
  change (Z.to_nat 2) with 2%nat. rewrite stump_leaf_2.
  cbn [mbind outcome_bind].
  apply bottom_up_loop_stuck; [lia|]. apply stump_leaf_2_again.
Qed.

(** C6 (the code departs from it).  The second loop of
    [precompute_marginals] never ends: its condition [node_index >= 0]
    holds for every [unsigned int], and its step [--i] does not change
    [node_index].  No call returns, whatever the tree; on the tree of the
    scenario the loop turns on node 2, the last index, at every amount of
    fuel, and never comes to index 0. *)
Theorem bottom_up_pass_never_terminates :
  (∀ z, bottom_up_guard (to_index_t z) = true) ∧
  (∀ (split_t : Type) (S : Split split_t) fuel lower_cutoff upper_cutoff
     pcs types (the_nodes : list (node split_t)) self,
     is_done (precompute_marginals fuel lower_cutoff upper_cutoff pcs types
                                   the_nodes self) = false) ∧
  (∀ fuel,
     precompute_marginals fuel NaN NaN unit_domain [0%nat] stump fresh
       = OutOfFuel).
Proof.
  split; [exact bottom_up_guard_index|]. split; [|exact stump_spins].
  intros split_t S fuel lower_cutoff upper_cutoff pcs types the_nodes self.
  unfold precompute_marginals.
  destruct (top_down pcs types the_nodes self) as [st| |]; [|done..].
  cbn [mbind outcome_bind].
  apply bottom_up_loop_not_done, to_index_t_nonneg.
Qed.

(** C10 (the code departs from it).  Line 162 builds
    [std::vector<bool>(0, num_features)], a vector of no entries: after
    the down pass every node has an active-variable vector of length 0,
    on the scenario's tree with its one feature as on any other, and the
    write of line 176 into such a vector is out of range. *)
Theorem active_variables_have_no_entries :
  top_down unit_domain [0%nat] stump fresh = Done (stump_table, stump_after_down) ∧
  length <$> active_variables stump_after_down = [0; 0; 0]%nat ∧
  record_active (internal 0 0 (num_frac 1 2) 1 2) 0 stump_after_down = Fault ∧
  (∀ (split_t : Type) (S : Split split_t) pcs types
     (the_nodes : list (node split_t)) self,
     match top_down pcs types the_nodes self with
     | Done (_, self') =>
         Forall (λ vars, length vars = 0%nat)
                (take (length the_nodes) (active_variables self'))
     | _ => True
     end).
Proof.
  split; [exact stump_top_down|]. split; [done|]. split; [compute_done|].
  intros split_t S pcs types the_nodes self. unfold top_down.
  destruct (precompute_setup pcs types the_nodes self) as [st| |]; [|done..].
  cbn [mbind outcome_bind].
  destruct (down_pass pcs types the_nodes st) as [[table self']| |] eqn:Hdown;
    [|done..].
  apply Forall_forall. intros vars [i Hi]%list_elem_of_lookup.
  apply lookup_take_Some in Hi. destruct Hi as [Hvars Hi].
  pose proof (down_pass_vars_empty _ _ _ _ _ Hdown i Hi) as Hempty.
  simpl in Hempty. by simplify_eq.
Qed.

(** C1 (the code departs from it).  On the scenario's tree the call never
    returns; the root is never processed, and processing it from what the
    code has stored by then is a fault at line 176.  Lines 183-199 taken
    alone store size 0 at the root, not 1/2 + 1/2, as they do at every
    node whatever its children hold: line 188 adds the children's sizes
    to [children_subspace_sizes], line 199 stores
    [children_subspace_size]. *)
Theorem weight_conservation_fails_on_stump :
  (∀ fuel,
     is_done (precompute_marginals fuel NaN NaN unit_domain [0%nat] stump fresh)
       = false) ∧
  (st ← top_down unit_domain [0%nat] stump fresh;
   self ← bottom_up_body stump (snd st) 2;
   bottom_up_body stump self 1) = Done stump_after_leaves ∧
  bottom_up_body stump stump_after_leaves 0 = Fault ∧
  compute_marginal (internal 0 0 (num_frac 1 2) 1 2) 0 stump_after_leaves
    = Done stump_root_marginal ∧
  subspace_sizes stump_root_marginal !! 0%nat = Some num_zero ∧
  num_add (positive_part (num_frac 1 2)) (positive_part (num_frac 1 2))
    = num_of_Z 1 ∧
  (∀ (split_t : Type) (S : Split split_t) (n : node split_t) node_index self,
     match compute_marginal n node_index self with
     | Done self' =>
         subspace_sizes self' !! node_index = Some num_zero ∧
         marginal_prediction self' !! node_index = Some NaN
     | _ => True
     end).
Proof.
  split; [intros fuel; by rewrite stump_spins|].
  do 5 (split; [compute_done|]).
  intros split_t S n node_index self.
  destruct (compute_marginal n node_index self) as [self'| |] eqn:Hrun; [|done..].
  by apply (compute_marginal_stores_zero n node_index self).
Qed.

(** C7 (the code departs from it).  After the down pass and the leaves,
    the active-variable vector of the scenario's root is empty: it does
    not hold the root's split feature 0, and recording it (line 176) is a
    write out of range.  The call itself never returns.  On every tree,
    lines 176-180 fault at every node once the down pass has run. *)
Theorem active_variable_of_root_not_recorded :
  active_variables stump_after_leaves !! 0%nat = Some [] ∧
  any_true [] [get_feature_index (AxisSplit 0 (num_frac 1 2) [])] = false ∧
  record_active (internal 0 0 (num_frac 1 2) 1 2) 0 stump_after_leaves = Fault ∧
  (∀ fuel,
     is_fault (precompute_marginals fuel NaN NaN unit_domain [0%nat] stump fresh)
       = false ∧
     is_done (precompute_marginals fuel NaN NaN unit_domain [0%nat] stump fresh)
       = false) ∧
  (∀ (split_t : Type) (S : Split split_t) pcs types
     (the_nodes : list (node split_t)) self,
     match top_down pcs types the_nodes self with
     | Done (_, self') =>
         Forall (λ i, ∀ n : node split_t, record_active n i self' = Fault)
                (seq 0 (length the_nodes))
     | _ => True
     end).
Proof.
  split; [done|]. split; [done|]. split; [compute_done|].
  split; [intros fuel; by rewrite stump_spins|].
  intros split_t S pcs types the_nodes self. unfold top_down.
  destruct (precompute_setup pcs types the_nodes self) as [st| |]; [|done..].
  cbn [mbind outcome_bind].
  destruct (down_pass pcs types the_nodes st) as [[table self']| |] eqn:Hdown;
    [|done..].
  apply Forall_forall. intros i Hi%elem_of_seq n.
  apply record_active_empty_faults.
  apply (down_pass_vars_empty _ _ _ _ _ Hdown i). lia.
Qed.

(** C4 (the code departs from it).  The cutoffs are read nowhere (line
    171 is a TODO).  Under the cutoffs [2, 4] the left leaf of the
    scenario, mean 1, is outside the range, and the body of the second
    loop leaves its raw volume 1/2 in place.  No call depends on the
    cutoffs it is given. *)
Theorem leaf_cutoff_not_applied :
  outside (num_of_Z 2) (num_of_Z 4) (leaf_mean (leaf 0 (num_of_Z 1))) = true ∧
  top_down unit_domain [0%nat] stump fresh = Done (stump_table, stump_after_down) ∧
  bottom_up_body stump stump_after_down 1
    = Done (set_marginal_prediction [num_of_Z 0; num_of_Z 1; num_of_Z 0]
                                    stump_after_down) ∧
  subspace_sizes stump_after_down !! 1%nat = Some (num_frac 1 2) ∧
  (∀ (split_t : Type) (S : Split split_t) fuel lower_cutoff upper_cutoff
     lower_cutoff' upper_cutoff' pcs types (the_nodes : list (node split_t)) self,
     precompute_marginals fuel lower_cutoff upper_cutoff pcs types the_nodes self
     = precompute_marginals fuel lower_cutoff' upper_cutoff' pcs types
                            the_nodes self).
Proof. repeat split; compute_done. Qed.

(** C5 (the code departs from it).  Line 157 splits the caller's domain
    [pcs] at every node, not the node's own restricted domain, and does so
    at leaves too.  On the tree of depth 2 over [0,1], node 4 lies in
    [1/4, 1/2] along its path, volume 1/4; the down pass gives it 3/4.
    The leaves write the table as well: entry 0 ends as what the last
    leaf's split made of [pcs]. *)
Theorem down_pass_ignores_path_restriction :
  top_down unit_domain [0%nat] two_level fresh
    = Done (two_level_table, two_level_after_down) ∧
  subspace_sizes two_level_after_down !! 4%nat = Some (num_frac 3 4) ∧
  path_domain 5 two_level unit_domain 4 = [[num_frac 1 4; num_frac 1 2]] ∧
  subspace_cardinality (path_domain 5 two_level unit_domain 4) [0%nat]
    = num_frac 1 4 ∧
  two_level_table !! 0%nat
    = Some (snd (compute_subspaces leaf_split unit_domain)).
Proof. repeat split; compute_done. Qed.

(** ** [marginalized_mean_prediction] *)

(** The work list only ever holds the root: the query is decided by the
    root's three entries. *)
Lemma query_root_only (self : fanova_state) (feature_vector : list num_t) :
  marginalized_mean_prediction self feature_vector =
    size_0 ← at_index (subspace_sizes self) 0;
    if num_eqb size_0 num_zero then Done NaN
    else
      vars_0 ← at_index (active_variables self) 0;
      if any_true vars_0 (get_non_NAN_indices feature_vector) then Done NaN
      else
        pred_0 ← at_index (marginal_prediction self) 0;
        Done (stats_mean (stats_push stats_empty pred_0 size_0)).
Proof.
  unfold marginalized_mean_prediction. cbn [marginalized_loop].
  destruct (at_index (subspace_sizes self) 0) as [size_0| |]; [|done..].
  cbn [mbind outcome_bind].
  destruct (num_eqb size_0 num_zero); [done|].
  destruct (at_index (active_variables self) 0) as [vars_0| |]; [|done..].
  cbn [mbind outcome_bind].
  destruct (any_true vars_0 _); [done|].
  by destruct (at_index (marginal_prediction self) 0).
Qed.

Lemma non_NAN_from_unknown (i : nat) (v : list num_t) :
  Forall (λ x, isnan x = true) v → non_NAN_from i v = [].
Proof.
  intros Hall. revert i. induction Hall as [|x v Hx _ IH]; intros i; simpl; [done|].
  by rewrite Hx.
Qed.

Lemma non_NAN_from_fixed (i f : nat) (v : list num_t) (q : Qc) :
  v !! f = Some (Num q) → (i + f)%nat ∈ non_NAN_from i v.
Proof.
  revert i f. induction v as [|x v IH]; intros i f; [done|].
  destruct f as [|f]; simpl.
  - intros [= ->]. simpl. rewrite Nat.add_0_r. apply list_elem_of_here.
  - intros Hq. replace (i + S f)%nat with (S i + f)%nat by lia.
    destruct (isnan x); [|apply list_elem_of_further]; by apply IH.
Qed.

Lemma fixed_feature (v : list num_t) (f : nat) (q : Qc) :
  v !! f = Some (Num q) → f ∈ get_non_NAN_indices v.
Proof. apply (non_NAN_from_fixed 0). Qed.

Lemma any_true_false (vars : list bool) (indices : list nat) (f : nat) :
  any_true vars indices = false → f ∈ indices → ¬ has_bit vars f.
Proof.
  unfold any_true, has_bit. intros Hany Hf Hbit.
  assert (existsb (λ i, default false (vars !! i)) indices = true) as Htrue.
  { apply existsb_exists. exists f. split; [by apply list_elem_of_In|].
    by rewrite Hbit. }
  congruence.
Qed.

Lemma any_true_subset (vars vars' : list bool) (indices : list nat) :
  (∀ f, has_bit vars' f → has_bit vars f) →
  any_true vars indices = false → any_true vars' indices = false.
Proof.
  unfold any_true, has_bit. intros Hsub Hany.
  apply not_true_is_false. intros (f & Hf & Hbit)%existsb_exists.
  destruct (vars' !! f) as [[]|] eqn:Hf'; simpl in Hbit; try done.
  assert (existsb (λ i, default false (vars !! i)) indices = true) as Htrue.
  { apply existsb_exists. exists f. split; [done|]. by rewrite (Hsub f Hf'). }
  congruence.
Qed.

(** C2 (the code departs from it).  The block of case 2 (lines 109-112)
    is empty: the query never descends.  On the scenario's tree with the
    annotations the scenario lists, the fully specified vectors [0.2] and
    [0.8] give the sentinel where the tree predicts 1 and 3; with what the
    code itself has stored for that tree they give 0. *)
Theorem fixed_query_does_not_descend :
  tree_prediction stump [num_frac 1 5] = Some (num_of_Z 1) ∧
  tree_prediction stump [num_frac 4 5] = Some (num_of_Z 3) ∧
  marginalized_mean_prediction stump_annotations [num_frac 1 5] = Done NaN ∧
  marginalized_mean_prediction stump_annotations [num_frac 4 5] = Done NaN ∧
  marginalized_mean_prediction stump_after_leaves [num_frac 1 5]
    = Done (num_of_Z 0) ∧
  marginalized_mean_prediction stump_after_leaves [num_frac 4 5]
    = Done (num_of_Z 0).
Proof. repeat split; compute_done. Qed.

(** ** Queries whose reachable leaves are all excluded *)

Section Excluded.
Context {split_t : Type} `{Split split_t}.
Variables (lower_cutoff upper_cutoff : num_t).
Variables (the_nodes : list (node split_t)) (self : fanova_state).
Variable feature_vector : list num_t.
Hypothesis Hann : annotated lower_cutoff upper_cutoff the_nodes self.
Hypothesis Hexcluded : ∀ i n,
  reachable the_nodes feature_vector i →
  the_nodes !! i = Some n → is_a_leaf n = true →
  outside lower_cutoff upper_cutoff (leaf_mean n) = true.

Lemma reachable_in_range (i : nat) :
  reachable the_nodes feature_vector i → (i < length the_nodes)%nat.
Proof.
  intros [|j n child _ Hn Hleaf Hsel].
  - apply Hann.
  - unfold selects in Hsel.
    assert (∀ k, get_child_index n k < length the_nodes)%nat as Hk.
    { intros k. by apply (ann_children _ _ _ _ Hann j n k). }
    destruct (feature_vector !! _) as [[|v]|]; [destruct Hsel| |destruct Hsel];
      subst child; apply Hk.
Qed.

Lemma unfixed_selects_both (n : node split_t) (vars : list bool) (k : nat) :
  has_bit vars (get_feature_index (get_split n)) →
  any_true vars (get_non_NAN_indices feature_vector) = false →
  (k ≤ 1)%nat →
  selects n feature_vector (get_child_index n k).
Proof.
  intros Hbit Hany Hk. unfold selects.
  destruct (feature_vector !! _) as [[|v]|] eqn:Hvalue.
  - destruct k as [|[|k]]; [by left|by right|lia].
  - exfalso. apply (any_true_false _ _ _ Hany (fixed_feature _ _ _ Hvalue) Hbit).
  - destruct k as [|[|k]]; [by left|by right|lia].
Qed.

(** A reachable node whose subtree splits on no fixed feature has only
    excluded leaves below it, and so has size zero. *)
Lemma unfixed_subtree_is_empty (depth i : nat) (vars : list bool) :
  (length the_nodes - i ≤ depth)%nat →
  reachable the_nodes feature_vector i →
  active_variables self !! i = Some vars →
  any_true vars (get_non_NAN_indices feature_vector) = false →
  subspace_sizes self !! i = Some num_zero.
Proof.
  revert i vars. induction depth as [|depth IH]; intros i vars Hdepth Hreach Hvars Hany.
  { apply reachable_in_range in Hreach. lia. }
  pose proof (reachable_in_range i Hreach) as Hi.
  destruct (lookup_lt_is_Some_2 the_nodes i Hi) as [n Hn].
  destruct (is_a_leaf n) eqn:Hleaf.
  { apply (ann_cutoff _ _ _ _ Hann i n Hn Hleaf). by apply (Hexcluded i n). }
  destruct (ann_active _ _ _ _ Hann i n vars Hn Hleaf Hvars) as [Hown Hsub].
  assert (∀ k, (k ≤ 1)%nat →
            subspace_sizes self !! get_child_index n k = Some num_zero) as Hchild.
  { intros k Hk.
    pose proof (ann_children _ _ _ _ Hann i n k Hn Hleaf) as Hrange.
    destruct (lookup_lt_is_Some_2 (active_variables self) (get_child_index n k))
      as [vars_c Hvars_c].
    { rewrite (ann_vars _ _ _ _ Hann). lia. }
    apply (IH _ vars_c); [lia| |done|].
    - eapply reachable_child; [exact Hreach|exact Hn|exact Hleaf|].
      by apply (unfixed_selects_both n vars k).
    - apply (any_true_subset vars); [|done]. intros f. by apply (Hsub k vars_c f). }
  rewrite (ann_conservation _ _ _ _ Hann i n num_zero num_zero Hn Hleaf
             (Hchild 0%nat (Nat.le_0_l _)) (Hchild 1%nat (le_n _))).
  f_equal. compute_done.
Qed.

(** On arrays that satisfy the invariants of the data model, when every
    leaf that the partial vector can reach is outside the cutoffs, the
    query faults nowhere and returns the sentinel.  Nothing here says that
    [precompute_marginals] leaves such arrays. *)
Theorem all_excluded_query_returns_sentinel :
  marginalized_mean_prediction self feature_vector = Done NaN.
Proof.
  rewrite query_root_only.
  pose proof (ann_root _ _ _ _ Hann) as Hroot.
  destruct (lookup_lt_is_Some_2 (subspace_sizes self) 0) as [size_0 Hsize].
  { rewrite (ann_sizes _ _ _ _ Hann). lia. }
  destruct (lookup_lt_is_Some_2 (active_variables self) 0) as [vars_0 Hvars].
  { rewrite (ann_vars _ _ _ _ Hann). lia. }
  unfold at_index. rewrite Hsize, Hvars. cbn [mbind outcome_bind].
  destruct (num_eqb size_0 num_zero) eqn:Hzero; [done|].
  destruct (any_true vars_0 _) eqn:Hany; [done|].
  exfalso.
  pose proof (unfixed_subtree_is_empty (length the_nodes) 0 vars_0
                ltac:(lia) (reachable_root _ _) Hvars Hany) as Hempty.
  rewrite Hsize in Hempty. injection Hempty as ->.
  revert Hzero. compute_done.
Qed.

End Excluded.

(** The scenario with cutoffs [2, 4]: the annotations the spec lists
    satisfy the invariants, and the vector [0.2] reaches the left leaf
    only, which is excluded. *)
Lemma stump_cut_annotated :
  annotated (num_of_Z 2) (num_of_Z 4) stump stump_cut_annotations.
Proof.
  split.
  - simpl. lia.
  - reflexivity.
  - reflexivity.
  - reflexivity.
  - intros [|[|[|i]]] n k Hn Hleaf; simplify_eq/=.
    destruct k as [|k]; simpl; lia.
  - intros [|[|[|i]]] n Hn Hleaf Hout; simplify_eq/=; reflexivity.
  - intros [|[|[|i]]] n s0 s1 Hn Hleaf Hs0 Hs1; simplify_eq/=.
    compute_done.
  - intros [|[|[|i]]] n vars Hn Hleaf Hvars; simplify_eq/=.
    split; [reflexivity|].
    intros [|k] vars_c [|f] Hvars_c Hbit; by simplify_eq/=.
Qed.

Lemma stump_cut_excluded (i : nat) (n : node axis_split) :
  reachable stump [num_frac 1 5] i →
  stump !! i = Some n → is_a_leaf n = true →
  outside (num_of_Z 2) (num_of_Z 4) (leaf_mean n) = true.
Proof.
  intros Hreach Hn Hleaf.
  destruct i as [|[|[|i]]]; simplify_eq/=.
  - compute_done.
  - exfalso. inversion Hreach as [|j p child _ Hp Hinternal Hsel Hchild].
    destruct j as [|[|[|j]]]; simplify_eq/=.
    revert Hsel. vm_compute. discriminate.
Qed.

Lemma all_excluded_query_returns_sentinel_witness :
  marginalized_mean_prediction stump_cut_annotations [num_frac 1 5] = Done NaN.
Proof.
  apply (all_excluded_query_returns_sentinel
           (num_of_Z 2) (num_of_Z 4) stump stump_cut_annotations
           [num_frac 1 5] stump_cut_annotated stump_cut_excluded).
Defined.

(** C8 (the code departs from it).  Under the cutoffs [5, 6] both leaves
    of the scenario's tree, means 1 and 3, are outside the range, so every
    leaf that the all-unknown vector reaches is excluded.  The call of
    [precompute_marginals] never returns, and the cutoffs are read
    nowhere: in every state of the arrays that the call goes through, the
    root keeps size 1 and prediction 0, and the query on the all-unknown
    vector returns 0, not the sentinel. *)
Theorem all_excluded_query_not_sentinel :
  outside (num_of_Z 5) (num_of_Z 6) (leaf_mean (leaf 0 (num_of_Z 1))) = true ∧
  outside (num_of_Z 5) (num_of_Z 6) (leaf_mean (leaf 0 (num_of_Z 3))) = true ∧
  (∀ fuel,
     is_done (precompute_marginals fuel (num_of_Z 5) (num_of_Z 6)
                                   unit_domain [0%nat] stump fresh) = false) ∧
  top_down unit_domain [0%nat] stump fresh = Done (stump_table, stump_after_down) ∧
  bottom_up_body stump stump_after_down 2 = Done stump_spinning ∧
  bottom_up_body stump stump_spinning 2 = Done stump_spinning ∧
  bottom_up_body stump stump_spinning 1 = Done stump_after_leaves ∧
  marginalized_mean_prediction stump_after_down [NaN] = Done (num_of_Z 0) ∧
  marginalized_mean_prediction stump_spinning [NaN] = Done (num_of_Z 0) ∧
  marginalized_mean_prediction stump_after_leaves [NaN] = Done (num_of_Z 0) ∧
  isnan (num_of_Z 0) = false.
Proof.
  split; [compute_done|]. split; [compute_done|].
  split; [|repeat split; compute_done].
  intros fuel.
  change (precompute_marginals fuel (num_of_Z 5) (num_of_Z 6)
                               unit_domain [0%nat] stump fresh)
    with (precompute_marginals fuel NaN NaN unit_domain [0%nat] stump fresh).
  by rewrite stump_spins.
Qed.

(** ** [std::sort] on numbers *)

Lemma num_le_Num (a b : Qc) : num_le (Num a) (Num b) ↔ (a ≤ b)%Qc.
Proof.
  unfold num_le. simpl. rewrite bool_decide_eq_false. symmetry. apply Qcle_ngt.
Qed.

Lemma num_le_total : Total num_le.
Proof.
  intros [|a] [|b]; unfold num_le; simpl; auto.
  destruct (total Qcle a b) as [Hle|Hle]; [left|right];
    by apply bool_decide_eq_false, Qcle_ngt.
Qed.

Lemma std_sort_sorted (v : list num_t) : Sorted num_le (std_sort v).
Proof. apply (@Sorted_merge_sort _ num_le _ num_le_total). Qed.

Lemma std_sort_permutation (v : list num_t) : std_sort v ≡ₚ v.
Proof. apply merge_sort_Permutation. Qed.

(** Without the sentinel the order is transitive, and sorted means
    sorted throughout. *)
Lemma Sorted_num_le_strong (v : list num_t) :
  Forall (λ x, isnan x = false) v → Sorted num_le v → StronglySorted num_le v.
Proof.
  induction v as [|x v IH]; intros Hnum Hsorted; [constructor|].
  apply Forall_cons in Hnum. destruct Hnum as [Hx Hnum].
  apply Sorted_inv in Hsorted. destruct Hsorted as [Hsorted Hhd].
  specialize (IH Hnum Hsorted). constructor; [done|].
  destruct Hhd as [|y v Hxy]; [constructor|].
  apply StronglySorted_inv in IH. destruct IH as [_ Hy].
  apply Forall_cons in Hnum. destruct Hnum as [Hynum Hnum].
  constructor; [done|].
  apply Forall_forall. intros z Hz.
  pose proof (proj1 (Forall_forall _ _) Hy z Hz) as Hyz.
  pose proof (proj1 (Forall_forall _ _) Hnum z Hz) as Hznum.
  destruct x as [|a], y as [|b], z as [|c]; try done.
  apply num_le_Num. apply num_le_Num in Hxy. apply num_le_Num in Hyz.
  by apply Qcle_trans with b.
Qed.

Lemma iota_from_sorted (j k : nat) :
  StronglySorted num_le (num_of_nat <$> seq j k).
Proof.
  revert j. induction k as [|k IH]; intros j; simpl; constructor; [apply IH|].
  apply Forall_fmap, Forall_forall. intros x Hx%elem_of_seq. simpl.
  apply num_le_Num. apply (proj1 (Z2Qc_inj_le _ _)). lia.
Qed.

Lemma iota_numbers (k : nat) : Forall (λ x, isnan x = false) (iota k).
Proof. unfold iota. apply Forall_fmap, Forall_forall. done. Qed.

Lemma std_sort_iota (k : nat) : std_sort (iota k) = iota k.
Proof.
  assert (Forall (λ x, isnan x = false) (std_sort (iota k))) as Hnum.
  { rewrite std_sort_permutation. apply iota_numbers. }
  apply (StronglySorted_unique_strong num_le).
  - intros x y Hx Hy Hxy Hyx.
    pose proof (proj1 (Forall_forall _ _) Hnum x Hx) as Hxnum.
    pose proof (proj1 (Forall_forall _ _) (iota_numbers k) y Hy) as Hynum.
    destruct x as [|a], y as [|b]; try done.
    apply num_le_Num in Hxy. apply num_le_Num in Hyx.
    f_equal. by apply Qcle_antisym.
  - apply Sorted_num_le_strong; [done|apply std_sort_sorted].
  - apply iota_from_sorted.
  - apply std_sort_permutation.
Qed.

(** ** [all_split_values] *)

Section Catalog.
Context {split_t : Type} `{Split split_t}.

Lemma scan_thresholds_snoc (seen : list (node split_t)) (n : node split_t)
    (f : nat) :
  scan_thresholds (seen ++ [n]) f
    = scan_thresholds seen f
      ++ (if splits_on f n then [get_num_split_value (get_split n)] else []).
Proof.
  unfold scan_thresholds. rewrite List.filter_app, fmap_app. simpl.
  by destruct (splits_on f n).
Qed.

Lemma catalog_entry_snoc (type : nat) (thresholds : list num_t) (value : num_t) :
  catalog_entry type (thresholds ++ [value])
    = if bool_decide (0 < type)%nat
         && bool_decide (length (catalog_entry type thresholds) = 0%nat)
      then iota type
      else catalog_entry type thresholds ++ [value].
Proof.
  destruct type as [|k]; [done|].
  destruct thresholds as [|t later]; simpl.
  - by rewrite app_nil_r.
  - by rewrite app_assoc.
Qed.

Lemma scanned_length (types : list nat) (seen : list (node split_t)) :
  length (scanned types seen) = length types.
Proof. apply length_imap. Qed.

Lemma scanned_lookup (types : list nat) (seen : list (node split_t))
    (f type : nat) :
  types !! f = Some type →
  scanned types seen !! f
    = Some (catalog_entry type (scan_thresholds seen f)).
Proof. intros Htype. unfold scanned. by rewrite list_lookup_imap, Htype. Qed.

(** One iteration of the loop over the nodes. *)
Lemma collect_split_scanned (types : list nat) (seen : list (node split_t))
    (n : node split_t) :
  (is_a_leaf n = false →
   (get_feature_index (get_split n) < length types)%nat) →
  collect_split types (scanned types seen) n
    = Done (scanned types (seen ++ [n])).
Proof.
  intros Hfeature. unfold collect_split.
  destruct (is_a_leaf n) eqn:Hleaf.
  - f_equal. apply imap_ext. intros f type _.
    rewrite scan_thresholds_snoc. unfold splits_on. rewrite Hleaf. simpl.
    by rewrite app_nil_r.
  - specialize (Hfeature eq_refl).
    destruct (lookup_lt_is_Some_2 types _ Hfeature) as [type Htype].
    unfold at_index. rewrite Htype, (scanned_lookup _ _ _ _ Htype).
    cbn [mbind outcome_bind].
    transitivity
      (assign (scanned types seen) (get_feature_index (get_split n))
         (catalog_entry type
            (scan_thresholds seen (get_feature_index (get_split n))
             ++ [get_num_split_value (get_split n)]))).
    { rewrite catalog_entry_snoc. by destruct (_ && _). }
    unfold assign. rewrite scanned_length.
    case_decide; [|lia]. f_equal.
    apply list_eq. intros f. rewrite list_lookup_insert, scanned_length.
    unfold scanned. rewrite !list_lookup_imap.
    case_decide as Hf.
    + destruct Hf as [<- _]. rewrite Htype. simpl.
      rewrite scan_thresholds_snoc. unfold splits_on. rewrite Hleaf. simpl.
      by rewrite bool_decide_eq_true_2.
    + destruct (types !! f) as [type'|] eqn:Htype'; [|done]. simpl.
      rewrite scan_thresholds_snoc. unfold splits_on. rewrite Hleaf. simpl.
      rewrite bool_decide_eq_false_2; [by rewrite app_nil_r|].
      intros Heq. apply Hf. split; [done|lia].
Qed.

Lemma collect_all_scanned (types : list nat) (seen the_nodes : list (node split_t)) :
  Forall (λ n, is_a_leaf n = false →
               (get_feature_index (get_split n) < length types)%nat) the_nodes →
  for_each (collect_split types) (scanned types seen) the_nodes
    = Done (scanned types (seen ++ the_nodes)).
Proof.
  intros Hall. revert seen.
  induction Hall as [|n the_nodes Hn _ IH]; intros seen; simpl.
  - by rewrite app_nil_r.
  - rewrite (collect_split_scanned _ _ _ Hn). cbn [mbind outcome_bind].
    by rewrite IH, <- app_assoc.
Qed.

Lemma scanned_nothing (types : list nat) :
  resize (length types) [] [] = scanned types ([] : list (node split_t)).
Proof.
  unfold resize, scanned. rewrite take_nil. simpl. rewrite Nat.sub_0_r.
  apply list_eq. intros f. rewrite list_lookup_imap.
  destruct (types !! f) as [type|] eqn:Htype; simpl.
  - rewrite lookup_replicate_2; [|by eapply lookup_lt_Some].
    by destruct type.
  - apply lookup_replicate_None. by apply lookup_ge_None.
Qed.

(** The first call, in full: every entry is the sorted collection of its
    feature. *)
Lemma all_split_values_first_call (types : list nat)
    (the_nodes : list (node split_t)) (self : fanova_state) :
  split_values self = [] →
  Forall (λ n, is_a_leaf n = false →
               (get_feature_index (get_split n) < length types)%nat) the_nodes →
  all_split_values types the_nodes self
    = Done (std_sort <$> scanned types the_nodes,
            set_split_values (std_sort <$> scanned types the_nodes) self).
Proof.
  intros Hfresh Hall. unfold all_split_values. rewrite Hfresh. simpl.
  rewrite scanned_nothing, (collect_all_scanned _ _ _ Hall). done.
Qed.

(** A later call returns the stored catalog, whatever it is given. *)
Lemma all_split_values_later_call (types : list nat)
    (the_nodes : list (node split_t)) (self : fanova_state) :
  split_values self ≠ [] →
  all_split_values types the_nodes self = Done (split_values self, self).
Proof.
  intros Hstored. unfold all_split_values.
  rewrite bool_decide_eq_false_2; [done|].
  by intros ?%nil_length_inv.
Qed.

End Catalog.

(** C9, as amended.  On an object whose catalog is still empty, and for
    a tree whose internal nodes split features that [types] lists, the
    first call returns and stores one entry per feature.  Every entry is
    sorted ascending: no element is followed by a smaller one, and when
    no element is the sentinel every element is at most each later one.
    The entry of a continuous feature is a permutation
    of the thresholds of the internal nodes that split on it; the entry
    of a categorical feature is empty when no internal node splits on it
    and exactly the category range [0..k-1] when exactly one does.  The
    same call again returns the same catalog and leaves the object as it
    is, and once [types] is not empty every later call returns the stored
    catalog whatever its arguments. *)
Theorem all_split_values_catalog {split_t : Type} `{Split split_t}
    (types : list nat) (the_nodes : list (node split_t)) (self : fanova_state) :
  split_values self = [] →
  Forall (λ n, is_a_leaf n = false →
               (get_feature_index (get_split n) < length types)%nat) the_nodes →
  ∃ catalog,
    all_split_values types the_nodes self
      = Done (catalog, set_split_values catalog self) ∧
    length catalog = length types ∧
    (∀ f type entry,
       types !! f = Some type → catalog !! f = Some entry →
       Sorted num_le entry ∧
       (Forall (λ x, isnan x = false) entry → StronglySorted num_le entry) ∧
       (type = 0%nat → entry ≡ₚ scan_thresholds the_nodes f) ∧
       ((0 < type)%nat → scan_thresholds the_nodes f = [] → entry = []) ∧
       ((0 < type)%nat → length (scan_thresholds the_nodes f) = 1%nat →
        entry = iota type)) ∧
    all_split_values types the_nodes (set_split_values catalog self)
      = Done (catalog, set_split_values catalog self) ∧
    (types ≠ [] → ∀ types' (the_nodes' : list (node split_t)),
       all_split_values types' the_nodes' (set_split_values catalog self)
         = Done (catalog, set_split_values catalog self)).
Proof.
  intros Hfresh Hall.
  exists (std_sort <$> scanned types the_nodes).
  assert (types ≠ [] → ∀ types' (the_nodes' : list (node split_t)),
            all_split_values types' the_nodes'
              (set_split_values (std_sort <$> scanned types the_nodes) self)
            = Done (std_sort <$> scanned types the_nodes,
                    set_split_values (std_sort <$> scanned types the_nodes) self))
    as Hlater.
  { intros Htypes types' the_nodes'.
    rewrite all_split_values_later_call; [done|].
    simpl. intros Hnil%(f_equal length).
    rewrite length_fmap, scanned_length in Hnil. by destruct types. }
  split; [by apply all_split_values_first_call|].
  split; [by rewrite length_fmap, scanned_length|].
  split; [|split; [|done]].
  - intros f type entry Htype Hentry.
    rewrite list_lookup_fmap, (scanned_lookup _ _ _ _ Htype) in Hentry.
    injection Hentry as <-.
    split; [apply std_sort_sorted|]. split; [|split; [|split]].
    + intros Hnum. apply Sorted_num_le_strong; [done|apply std_sort_sorted].
    + intros ->. apply std_sort_permutation.
    + intros Htype' ->. by destruct type.
    + intros Htype' Hone. destruct type as [|k]; [lia|].
      destruct (scan_thresholds the_nodes f) as [|t [|]]; try done.
      simpl. rewrite app_nil_r. apply (std_sort_iota (S k)).
  - destruct types as [|type types]; [|by apply Hlater].
    assert (set_split_values (std_sort <$> scanned [] the_nodes) self = self)
      as Hsame; [by destruct self; simpl in *; subst|].
    rewrite Hsame, all_split_values_first_call by done. by rewrite Hsame.
Qed.

Lemma all_split_values_catalog_witness :
  ∃ catalog,
    all_split_values [0%nat] two_level fresh
      = Done (catalog, set_split_values catalog fresh) ∧
    length catalog = 1%nat ∧
    (∀ f type entry,
       [0%nat] !! f = Some type → catalog !! f = Some entry →
       Sorted num_le entry ∧
       (Forall (λ x, isnan x = false) entry → StronglySorted num_le entry) ∧
       (type = 0%nat → entry ≡ₚ scan_thresholds two_level f) ∧
       ((0 < type)%nat → scan_thresholds two_level f = [] → entry = []) ∧
       ((0 < type)%nat → length (scan_thresholds two_level f) = 1%nat →
        entry = iota type)) ∧
    all_split_values [0%nat] two_level (set_split_values catalog fresh)
      = Done (catalog, set_split_values catalog fresh) ∧
    ([0%nat] ≠ [] → ∀ types' (the_nodes' : list (node axis_split)),
       all_split_values types' the_nodes' (set_split_values catalog fresh)
         = Done (catalog, set_split_values catalog fresh)).
Proof.
  apply (all_split_values_catalog [0%nat] two_level fresh).
  - reflexivity.
  - repeat constructor; simpl; intros; (lia || discriminate).
Defined.

(** The catalog of [two_level]: its two thresholds in ascending order;
    and that of the single-leaf tree: one empty entry per feature. *)
Lemma two_level_catalog :
  all_split_values [0%nat] two_level fresh
    = Done ([[num_frac 1 4; num_frac 1 2]],
            set_split_values [[num_frac 1 4; num_frac 1 2]] fresh).
Proof. compute_done. Qed.

(** C9 as stated fails for a categorical feature that no internal node
    splits on: for the single-leaf tree and one feature with two
    categories the entry is empty, not the range [0, 1]. *)
Lemma catalog_unsplit_categorical_counterexample :
  all_split_values [2%nat] single_leaf fresh
    = Done ([[]], set_split_values [[]] fresh) ∧
  ¬ ∃ catalog self',
      all_split_values [2%nat] single_leaf fresh = Done (catalog, self') ∧
      catalog !! 0%nat = Some (iota 2).
Proof.
  assert (all_split_values [2%nat] single_leaf fresh
          = Done ([[]], set_split_values [[]] fresh)) as Hrun by compute_done.
  split; [done|].
  intros (catalog & self' & Hrun' & Hentry).
  rewrite Hrun in Hrun'. by simplify_eq.
Qed.

(** When two internal nodes split the same categorical feature, the
    second one's split value is appended to the category range. *)
Lemma twice_split_catalog :
  all_split_values [2%nat] twice_split fresh
    = Done ([std_sort [num_of_Z 0; num_of_Z 1; NaN]],
            set_split_values [std_sort [num_of_Z 0; num_of_Z 1; NaN]] fresh).
Proof. compute_done. Qed.

(** ** The down pass in general *)

Lemma for_each_app {A S} (body : S → A → outcome S) (s : S) (v w : list A) :
  for_each body s (v ++ w) = s' ← for_each body s v; for_each body s' w.
Proof.
  revert s. induction v as [|x v IH]; intros s; simpl; [done|].
  destruct (body s x); simpl; auto.
Qed.

Section DownPass.
Context {split_t : Type} `{Split split_t}.
Variables (pcs : subspace_t) (types : list nat).
Variable the_nodes : list (node split_t).

(** What one iteration does when it returns. *)
Lemma down_pass_body_effect table self st' i :
  down_pass_body pcs types the_nodes (table, self) i = Done st' →
  ∃ n own,
    the_nodes !! i = Some n ∧ table !! i = Some own ∧
    (fst (get_children n) < length table)%nat ∧
    (snd (get_children n) < length table)%nat ∧
    fst st' =
      <[i:=[]]>
        (<[snd (get_children n):=snd (compute_subspaces (get_split n) pcs)]>
           (<[fst (get_children n):=fst (compute_subspaces (get_split n) pcs)]>
              table)) ∧
    subspace_sizes (snd st')
      = <[i:=subspace_cardinality own types]> (subspace_sizes self) ∧
    active_variables (snd st') = <[i:=[]]> (active_variables self) ∧
    marginal_prediction (snd st') = marginal_prediction self ∧
    split_values (snd st') = split_values self.
Proof.
  unfold down_pass_body. intros Hrun. outcome_inv.
  rewrite length_insert in *.
  eexists _, _. repeat split; eauto.
Qed.

(** When one iteration returns, and that it faults otherwise. *)
Lemma down_pass_body_defined st i n :
  sized the_nodes st → the_nodes !! i = Some n →
  if bool_decide ((fst (get_children n) < length the_nodes)%nat ∧
                  (snd (get_children n) < length the_nodes)%nat)
  then ∃ st', down_pass_body pcs types the_nodes st i = Done st' ∧ sized the_nodes st'
  else down_pass_body pcs types the_nodes st i = Fault.
Proof.
  destruct st as [table self]. intros (Htable & Hsizes & Hvars) Hn.
  simpl in *. pose proof (lookup_lt_Some _ _ _ Hn) as Hi.
  destruct (lookup_lt_is_Some_2 table i) as [own Hown]; [lia|].
  unfold down_pass_body, at_index, assign. rewrite Hn, Hown.
  cbn [mbind outcome_bind get_child_index].
  case_bool_decide as Hrange;
    repeat (case_decide; cbn [mbind outcome_bind];
            rewrite ?length_insert in * );
    try (exfalso; unfold subspace_t in *; lia); try done.
  eexists. split; [done|].
  repeat split; simpl; by rewrite ?length_insert.
Qed.

Lemma down_pass_range_defined (a m : nat) st :
  sized the_nodes st → (a + m ≤ length the_nodes)%nat →
  if bool_decide (Forall (λ n, (fst (get_children n) < length the_nodes)%nat ∧
                               (snd (get_children n) < length the_nodes)%nat)
                         (take m (drop a the_nodes)))
  then ∃ st', for_each (down_pass_body pcs types the_nodes) st (seq a m)
                = Done st' ∧ sized the_nodes st'
  else for_each (down_pass_body pcs types the_nodes) st (seq a m) = Fault.
Proof.
  revert a st. induction m as [|m IH]; intros a st Hsized Hrange.
  { rewrite bool_decide_eq_true_2 by (rewrite take_0; constructor).
    by exists st. }
  destruct (lookup_lt_is_Some_2 the_nodes a) as [n Hn]; [lia|].
  rewrite (drop_S _ _ _ Hn). cbn [take seq for_each].
  pose proof (down_pass_body_defined st a n Hsized Hn) as Hbody.
  case_bool_decide as Hhead.
  - destruct Hbody as (st1 & -> & Hsized1). cbn [mbind outcome_bind].
    specialize (IH (S a) st1 Hsized1 ltac:(lia)).
    case_bool_decide as Htail.
    + rewrite bool_decide_eq_true_2; [done|by constructor].
    + rewrite bool_decide_eq_false_2; [done|].
      intros Hall. apply Htail. by apply Forall_cons in Hall as [_ ?].
  - rewrite Hbody. rewrite bool_decide_eq_false_2; [done|].
    intros Hall. apply Hhead. by apply Forall_cons in Hall as [? _].
Qed.

(** An entry of the table that no iteration of a range writes. *)
Lemma down_pass_range_table (a m c : nat) st st' :
  for_each (down_pass_body pcs types the_nodes) st (seq a m) = Done st' →
  (∀ j nj, (a ≤ j < a + m)%nat → the_nodes !! j = Some nj →
           j ≠ c ∧ fst (get_children nj) ≠ c ∧ snd (get_children nj) ≠ c) →
  fst st' !! c = fst st !! c.
Proof.
  revert a st. induction m as [|m IH]; intros a st Hrun Hother.
  { by injection Hrun as <-. }
  cbn [seq for_each] in Hrun.
  apply bind_Done in Hrun. destruct Hrun as (st1 & Hbody & Hrest).
  destruct st as [table self].
  apply down_pass_body_effect in Hbody.
  destruct Hbody as (n & own & Hn & _ & _ & _ & Htable & _).
  rewrite (IH (S a) st1 Hrest); [|intros j nj Hj; apply Hother; lia].
  destruct (Hother a n ltac:(lia) Hn) as (Ha & H0 & H1).
  rewrite Htable. simpl. by rewrite !list_lookup_insert_ne.
Qed.

(** A stored size that no iteration of a range writes. *)
Lemma down_pass_range_sizes (a m c : nat) st st' :
  for_each (down_pass_body pcs types the_nodes) st (seq a m) = Done st' →
  (c < a ∨ a + m ≤ c)%nat →
  subspace_sizes (snd st') !! c = subspace_sizes (snd st) !! c.
Proof.
  revert a st. induction m as [|m IH]; intros a st Hrun Hc.
  { by injection Hrun as <-. }
  cbn [seq for_each] in Hrun.
  apply bind_Done in Hrun. destruct Hrun as (st1 & Hbody & Hrest).
  destruct st as [table self].
  apply down_pass_body_effect in Hbody.
  destruct Hbody as (n & own & _ & _ & _ & _ & _ & Hsizes & _).
  rewrite (IH (S a) st1 Hrest) by lia.
  rewrite Hsizes. simpl. apply list_lookup_insert_ne. lia.
Qed.

(** The members a range of iterations never writes. *)
Lemma down_pass_range_keeps (indices : list nat) st st' :
  for_each (down_pass_body pcs types the_nodes) st indices = Done st' →
  marginal_prediction (snd st') = marginal_prediction (snd st) ∧
  split_values (snd st') = split_values (snd st).
Proof.
  revert st. induction indices as [|i indices IH]; intros st Hrun.
  { by injection Hrun as <-. }
  cbn [for_each] in Hrun.
  apply bind_Done in Hrun. destruct Hrun as (st1 & Hbody & Hrest).
  destruct st as [table self].
  apply down_pass_body_effect in Hbody.
  destruct Hbody as (n & own & _ & _ & _ & _ & _ & _ & _ & Hpreds & Hvalues).
  destruct (IH st1 Hrest) as [-> ->]. by rewrite Hpreds, Hvalues.
Qed.

Lemma down_pass_range_sized (indices : list nat) st st' :
  for_each (down_pass_body pcs types the_nodes) st indices = Done st' →
  sized the_nodes st → sized the_nodes st'.
Proof.
  revert st. induction indices as [|i indices IH]; intros st Hrun Hsized.
  { by injection Hrun as <-. }
  cbn [for_each] in Hrun.
  apply bind_Done in Hrun. destruct Hrun as (st1 & Hbody & Hrest).
  apply (IH st1 Hrest). destruct st as [table self].
  apply down_pass_body_effect in Hbody.
  destruct Hbody as (n & own & _ & _ & _ & _ & Htable & Hsizes & Hvars & _).
  destruct Hsized as (? & ? & ?). unfold sized.
  rewrite Htable, Hsizes, Hvars, !length_insert. done.
Qed.

(** What a call has done when lines 138-166 return. *)
Lemma top_down_Done self st' :
  top_down pcs types the_nodes self = Done st' →
  length pcs = length types ∧ (0 < length the_nodes)%nat ∧
  down_pass pcs types the_nodes
    (<[0%nat:=pcs]> (replicate (length the_nodes) []),
     FanovaState (resize (length the_nodes) num_zero (subspace_sizes self))
                 (resize (length the_nodes) num_zero (marginal_prediction self))
                 (resize (length the_nodes) [] (active_variables self))
                 (split_values self)) = Done st'.
Proof.
  unfold top_down, precompute_setup. intros Hrun.
  case_decide as Hlen; [|done].
  apply bind_Done in Hrun. destruct Hrun as (st0 & Hsetup & Hrun).
  outcome_inv. rewrite length_replicate in *. done.
Qed.

Lemma resize_length {A} (n : nat) (d : A) (v : list A) :
  length (resize n d v) = n.
Proof.
  unfold resize. rewrite length_app, length_take, length_replicate. lia.
Qed.

Lemma setup_sized self :
  sized the_nodes
    (<[0%nat:=pcs]> (replicate (length the_nodes) [] : list subspace_t),
     FanovaState (resize (length the_nodes) num_zero (subspace_sizes self))
                 (resize (length the_nodes) num_zero (marginal_prediction self))
                 (resize (length the_nodes) [] (active_variables self))
                 (split_values self)).
Proof.
  unfold sized. simpl.
  by rewrite length_insert, length_replicate, !resize_length.
Qed.

(** The members that lines 138-166 do not write, the resize apart. *)
Lemma top_down_keeps self table self' :
  top_down pcs types the_nodes self = Done (table, self') →
  marginal_prediction self'
    = resize (length the_nodes) num_zero (marginal_prediction self) ∧
  split_values self' = split_values self.
Proof.
  intros Hrun. apply top_down_Done in Hrun. destruct Hrun as (_ & _ & Hpass).
  unfold down_pass in Hpass.
  apply down_pass_range_keeps in Hpass. exact Hpass.
Qed.

End DownPass.

(** Over an index that does not wrap, lines 138-166 return exactly when
    the arguments are well posed, and fault otherwise. *)
Lemma top_down_outcome {split_t : Type} `{Split split_t}
    (pcs : subspace_t) (types : list nat) (the_nodes : list (node split_t))
    (self : fanova_state) :
  is_done (top_down pcs types the_nodes self)
    = bool_decide (well_posed pcs types the_nodes) ∧
  is_fault (top_down pcs types the_nodes self)
    = negb (bool_decide (well_posed pcs types the_nodes)).
Proof.
  unfold top_down, precompute_setup, well_posed.
  case_decide as Hlen.
  2:{ rewrite bool_decide_eq_false_2; [done|]. by intros [? _]. }
  unfold assign. rewrite length_replicate.
  case_decide as Hroot.
  2:{ rewrite bool_decide_eq_false_2; [done|]. by intros (_ & ? & _). }
  cbv zeta. cbn [mbind outcome_bind]. unfold down_pass.
  pose proof (down_pass_range_defined pcs types the_nodes 0 (length the_nodes)
                _ (setup_sized pcs the_nodes self) ltac:(lia)) as Hpass.
  rewrite drop_0, firstn_all in Hpass. unfold subspace_t in *.
  case_bool_decide as Hrange.
  - destruct Hpass as (st' & Hst' & _). rewrite Hst'.
    by rewrite bool_decide_eq_true_2.
  - rewrite Hpass. rewrite bool_decide_eq_false_2; [done|].
    by intros (_ & _ & ?).
Qed.

(** X1.  On a node array of fewer than 2^32 entries, where the index [i]
    of line 153 reaches the node count without wrapping, lines 138-166
    return exactly when the domain and the type vector have the same
    length, the tree has a root and every node object holds child indices
    inside the node array; otherwise they fault, at the assertion or at
    an access out of range. *)
Theorem top_down_defined {split_t : Type} `{Split split_t}
    (pcs : subspace_t) (types : list nat) (the_nodes : list (node split_t))
    (self : fanova_state) :
  Z.of_nat (length the_nodes) < index_modulus →
  is_done (top_down pcs types the_nodes self)
    = bool_decide (well_posed pcs types the_nodes) ∧
  is_fault (top_down pcs types the_nodes self)
    = negb (bool_decide (well_posed pcs types the_nodes)).
Proof. intros _. apply top_down_outcome. Qed.

Lemma top_down_defined_witness :
  (is_done (top_down unit_domain [0%nat] two_level fresh) = true ∧
   is_fault (top_down unit_domain [0%nat] two_level fresh) = false) ∧
  (is_done (top_down unit_domain [] two_level fresh) = false ∧
   is_fault (top_down unit_domain [] two_level fresh) = true) ∧
  (is_done (top_down unit_domain [0%nat]
              [internal 0 0 (num_frac 1 2) 1 2; leaf 0 (num_of_Z 1)] fresh)
     = false ∧
   is_fault (top_down unit_domain [0%nat]
               [internal 0 0 (num_frac 1 2) 1 2; leaf 0 (num_of_Z 1)] fresh)
     = true).
Proof.
  split; [|split].
  - apply (top_down_defined unit_domain [0%nat] two_level fresh).
    vm_compute. reflexivity.
  - apply (top_down_defined unit_domain [] two_level fresh).
    vm_compute. reflexivity.
  - apply (top_down_defined unit_domain [0%nat]
             [internal 0 0 (num_frac 1 2) 1 2; leaf 0 (num_of_Z 1)] fresh).
    vm_compute. reflexivity.
Defined.

Lemma seq_cut (a m k : nat) :
  (k ≤ m)%nat → seq a m = seq a k ++ seq (a + k) (m - k).
Proof. intros Hk. rewrite <- seq_app. f_equal. lia. Qed.

Lemma seq_head (a m : nat) : (0 < m)%nat → seq a m = a :: seq (S a) (m - 1).
Proof. destruct m as [|m]; [lia|]. intros _. simpl. by rewrite Nat.sub_0_r. Qed.

Lemma at_index_is_done {A} (v : list A) (i : nat) :
  is_done (at_index v i) = bool_decide (i < length v)%nat.
Proof.
  unfold at_index. destruct (v !! i) as [x|] eqn:Hi; simpl.
  - symmetry. apply bool_decide_eq_true_2. by eapply lookup_lt_Some.
  - symmetry. apply bool_decide_eq_false_2.
    apply Nat.le_ngt. by apply lookup_ge_None.
Qed.

(** X2.  When lines 138-166 return, [get_subspace_size] and [get_vars]
    are in range for exactly the indices of the node array, whatever the
    arrays held before the call; the predictions are the old ones resized
    to the node count, and the catalog of split values is untouched. *)
Theorem top_down_arrays {split_t : Type} `{Split split_t}
    (pcs : subspace_t) (types : list nat) (the_nodes : list (node split_t))
    (self : fanova_state) :
  match top_down pcs types the_nodes self with
  | Done (_, self') =>
      (∀ i, is_done (get_subspace_size self' i)
              = bool_decide (i < length the_nodes)%nat ∧
            is_done (get_vars self' i)
              = bool_decide (i < length the_nodes)%nat) ∧
      marginal_prediction self'
        = resize (length the_nodes) num_zero (marginal_prediction self) ∧
      split_values self' = split_values self
  | _ => True
  end.
Proof.
  destruct (top_down pcs types the_nodes self) as [[table self']| |] eqn:Hrun;
    [|done..].
  apply top_down_Done in Hrun. destruct Hrun as (_ & _ & Hpass).
  unfold down_pass in Hpass.
  pose proof (down_pass_range_sized _ _ _ _ _ _ Hpass (setup_sized pcs the_nodes self))
    as (_ & Hsizes & Hvars).
  pose proof (down_pass_range_keeps _ _ _ _ _ _ Hpass) as [Hpreds Hvalues].
  simpl in *. split; [|done].
  intros i. unfold get_subspace_size, get_vars.
  by rewrite !at_index_is_done, Hsizes, Hvars.
Qed.

(** X3.  When lines 138-166 return, the size stored for the root is the
    cardinality of the caller's domain, on every tree. *)
Theorem root_volume_is_domain_cardinality {split_t : Type} `{Split split_t}
    (pcs : subspace_t) (types : list nat) (the_nodes : list (node split_t))
    (self : fanova_state) :
  match top_down pcs types the_nodes self with
  | Done (_, self') =>
      get_subspace_size self' 0 = Done (subspace_cardinality pcs types)
  | _ => True
  end.
Proof.
  destruct (top_down pcs types the_nodes self) as [[table self']| |] eqn:Hrun;
    [|done..].
  apply top_down_Done in Hrun. destruct Hrun as (_ & Hroot & Hpass).
  unfold down_pass in Hpass.
  destruct (length the_nodes) as [|m] eqn:Hlen; [lia|].
  cbn [seq for_each] in Hpass.
  apply bind_Done in Hpass. destruct Hpass as (st1 & Hbody & Hrest).
  apply down_pass_range_sizes with (c := 0%nat) in Hrest; [|lia].
  apply down_pass_body_effect in Hbody.
  destruct Hbody as (n & own & _ & Hown & _ & _ & _ & Hsizes & _).
  simpl in Hown, Hsizes. injection Hown as <-.
  unfold get_subspace_size. apply at_index_Done.
  simpl in Hrest. rewrite Hrest, Hsizes.
  apply list_lookup_insert_eq. rewrite resize_length. lia.
Qed.

(** X4.  When lines 138-166 return, the size stored for a node [c] that
    is a child of an earlier node [p], and of no other node before [c],
    is the cardinality of the part that the split of [p] makes of the
    caller's whole domain: the restrictions made above [p] are not in
    it. *)
Theorem child_volume_from_whole_domain {split_t : Type} `{Split split_t}
    (pcs : subspace_t) (types : list nat) (the_nodes : list (node split_t))
    (self self' : fanova_state) (table : list subspace_t)
    (p c : nat) (np : node split_t) :
  top_down pcs types the_nodes self = Done (table, self') →
  the_nodes !! p = Some np → (p < c)%nat →
  fst (get_children np) = c ∨ snd (get_children np) = c →
  (∀ j nj, (j < c)%nat → j ≠ p → the_nodes !! j = Some nj →
           fst (get_children nj) ≠ c ∧ snd (get_children nj) ≠ c) →
  get_subspace_size self' c
    = Done (subspace_cardinality (handed_domain np pcs c) types).
Proof.
  intros Hrun Hp Hpc Hchild Hothers.
  (* the child index is inside the node array *)
  assert (c < length the_nodes)%nat as Hclen.
  { pose proof (top_down_outcome pcs types the_nodes self) as [Hdone _].
    rewrite Hrun in Hdone. symmetry in Hdone.
    apply bool_decide_eq_true in Hdone. destruct Hdone as (_ & _ & Hrange).
    pose proof (proj1 (Forall_lookup _ _) Hrange p np Hp) as [H0 H1].
    destruct Hchild; lia. }
  apply top_down_Done in Hrun. destruct Hrun as (_ & _ & Hpass).
  unfold down_pass in Hpass.
  pose proof (setup_sized pcs the_nodes self) as Hsized0.
  rewrite (seq_cut 0 _ p) in Hpass by lia. simpl (0 + p)%nat in Hpass.
  rewrite for_each_app in Hpass.
  apply bind_Done in Hpass. destruct Hpass as (st1 & Hpre & Hpass).
  rewrite (seq_head p) in Hpass by lia. cbn [for_each] in Hpass.
  apply bind_Done in Hpass. destruct Hpass as (st2 & Hatp & Hpass).
  rewrite (seq_cut (S p) _ (c - S p)) in Hpass by lia.
  replace (S p + (c - S p))%nat with c in Hpass by lia.
  rewrite for_each_app in Hpass.
  apply bind_Done in Hpass. destruct Hpass as (st3 & Hmid & Hpass).
  rewrite (seq_head c) in Hpass by lia. cbn [for_each] in Hpass.
  apply bind_Done in Hpass. destruct Hpass as (st4 & Hatc & Hpost).
  pose proof (down_pass_range_sized _ _ _ _ _ _ Hpre Hsized0) as Hsized1.
  (* after node p, the table holds the handed domain at c *)
  assert (fst st2 !! c = Some (handed_domain np pcs c) ∧ sized the_nodes st2)
    as [Htable2 Hsized2].
  { destruct st1 as [table1 self1].
    apply down_pass_body_effect in Hatp.
    destruct Hatp as (n & own & Hn & _ & H0 & H1 & Htable & Hsizes & Hvars & _).
    destruct Hsized1 as (Hl1 & Hl2 & Hl3). simpl in Hl1, Hl2, Hl3.
    simplify_eq. split.
    - rewrite Htable, list_lookup_insert_ne by lia.
      unfold handed_domain. case_decide as Hsnd.
      + rewrite Hsnd. apply list_lookup_insert_eq.
        rewrite length_insert. by rewrite <- Hsnd.
      + destruct Hchild as [Hfst|]; [|done].
        rewrite list_lookup_insert_ne by done.
        rewrite Hfst. apply list_lookup_insert_eq. by rewrite <- Hfst.
    - unfold sized. by rewrite Htable, Hsizes, Hvars, !length_insert. }
  pose proof (down_pass_range_sized _ _ _ _ _ _ Hmid Hsized2) as Hsized3.
  (* the nodes between p and c leave it there *)
  assert (fst st3 !! c = Some (handed_domain np pcs c)) as Htable3.
  { rewrite <- Htable2.
    apply (down_pass_range_table _ _ _ _ _ _ _ _ Hmid).
    intros j nj Hj Hnj. split; [lia|]. apply (Hothers j nj); [lia|lia|done]. }
  (* node c computes its size from it, and no later node writes that size *)
  destruct st3 as [table3 self3].
  apply down_pass_body_effect in Hatc.
  destruct Hatc as (n & own & _ & Hown & _ & _ & _ & Hsizes & _).
  simpl in Htable3. rewrite Htable3 in Hown. injection Hown as <-.
  apply down_pass_range_sizes with (c := c) in Hpost; [|lia].
  unfold get_subspace_size. apply at_index_Done.
  simpl in Hpost. rewrite Hpost, Hsizes. apply list_lookup_insert_eq.
  destruct Hsized3 as (_ & Hlen3 & _). simpl in Hlen3. lia.
Qed.

Lemma child_volume_from_whole_domain_witness :
  get_subspace_size two_level_after_down 4
    = Done (subspace_cardinality
              (handed_domain (internal 0 0 (num_frac 1 4) 3 4) unit_domain 4)
              [0%nat]) ∧
  subspace_cardinality
    (handed_domain (internal 0 0 (num_frac 1 4) 3 4) unit_domain 4) [0%nat]
    = num_frac 3 4.
Proof.
  split; [|vm_compute; reflexivity].
  apply (child_volume_from_whole_domain
           unit_domain [0%nat] two_level fresh two_level_after_down
           two_level_table 1 4 (internal 0 0 (num_frac 1 4) 3 4)).
  - compute_done.
  - reflexivity.
  - lia.
  - right. reflexivity.
  - intros [|[|[|[|j]]]] nj Hj Hne Hnj; simplify_eq/=; (lia || (split; lia)).
Defined.

(** ** More on [marginalized_mean_prediction] *)

(** X6.  The query reads the entries of the root and of no other node:
    two objects whose three arrays agree at index 0 answer every vector
    alike. *)
Theorem query_reads_the_root_only (self self' : fanova_state)
    (feature_vector : list num_t) :
  subspace_sizes self !! 0%nat = subspace_sizes self' !! 0%nat →
  active_variables self !! 0%nat = active_variables self' !! 0%nat →
  marginal_prediction self !! 0%nat = marginal_prediction self' !! 0%nat →
  marginalized_mean_prediction self feature_vector
    = marginalized_mean_prediction self' feature_vector.
Proof.
  intros Hsizes Hvars Hpreds. rewrite !query_root_only. unfold at_index.
  by rewrite Hsizes, Hvars, Hpreds.
Qed.

Lemma query_reads_the_root_only_witness :
  marginalized_mean_prediction stump_annotations [NaN]
    = marginalized_mean_prediction
        (FanovaState [num_of_Z 1] [num_of_Z 2] [[true]] []) [NaN].
Proof.
  apply (query_reads_the_root_only stump_annotations
           (FanovaState [num_of_Z 1] [num_of_Z 2] [[true]] []) [NaN]);
    reflexivity.
Defined.

(** X7.  A vector that fixes a feature recorded in the root's
    active-variable vector gets the sentinel, whatever the values of the
    vector and whatever the tree below the root holds. *)
Theorem query_fixing_an_active_feature (self : fanova_state)
    (feature_vector : list num_t) (size_0 : num_t) (vars_0 : list bool)
    (f : nat) (q : Qc) :
  subspace_sizes self !! 0%nat = Some size_0 →
  active_variables self !! 0%nat = Some vars_0 →
  feature_vector !! f = Some (Num q) →
  has_bit vars_0 f →
  marginalized_mean_prediction self feature_vector = Done NaN.
Proof.
  intros Hsize Hvars Hvalue Hbit. rewrite query_root_only. unfold at_index.
  rewrite Hsize, Hvars. cbn [mbind outcome_bind].
  destruct (num_eqb size_0 num_zero); [done|].
  destruct (any_true vars_0 _) eqn:Hany; [done|].
  by destruct (any_true_false _ _ _ Hany (fixed_feature _ _ _ Hvalue)).
Qed.

Lemma query_fixing_an_active_feature_witness :
  marginalized_mean_prediction stump_annotations [num_frac 4 5] = Done NaN.
Proof.
  apply (query_fixing_an_active_feature stump_annotations [num_frac 4 5]
           (num_of_Z 1) [true] 0 (Q2Qc (4 # 5)));
    reflexivity.
Defined.

(** X12.  On a vector whose every entry is unknown, the query answers
    from the root's entries alone: the sentinel when the size stored for
    the root equals zero, and otherwise the mean of the running
    statistics after the one contribution of the root's stored
    prediction, weighted by the root's stored size. *)
Theorem query_of_all_unknown (self : fanova_state)
    (feature_vector : list num_t) (size_0 pred_0 : num_t) (vars_0 : list bool) :
  Forall (λ x, isnan x = true) feature_vector →
  subspace_sizes self !! 0%nat = Some size_0 →
  active_variables self !! 0%nat = Some vars_0 →
  marginal_prediction self !! 0%nat = Some pred_0 →
  marginalized_mean_prediction self feature_vector
    = Done (if num_eqb size_0 num_zero then NaN
            else stats_mean (stats_push stats_empty pred_0 size_0)).
Proof.
  intros Hunknown Hsize Hvars Hpred.
  rewrite query_root_only. unfold at_index, get_non_NAN_indices.
  rewrite Hsize, Hvars, Hpred, (non_NAN_from_unknown _ _ Hunknown).
  cbn [mbind outcome_bind any_true existsb].
  by destruct (num_eqb size_0 num_zero).
Qed.

Lemma single_leaf_stored :
  (st ← top_down point_domain [0%nat] single_leaf fresh;
   bottom_up_body single_leaf (snd st) 0) = Done single_leaf_annotations.
Proof. compute_done. Qed.

Lemma query_of_all_unknown_witness :
  marginalized_mean_prediction stump_after_leaves [NaN]
    = Done (if num_eqb (num_of_Z 1) num_zero then NaN
            else stats_mean (stats_push stats_empty (num_of_Z 0) (num_of_Z 1))) ∧
  marginalized_mean_prediction single_leaf_annotations [NaN]
    = Done (if num_eqb (num_of_Z 0) num_zero then NaN
            else stats_mean (stats_push stats_empty (num_of_Z 1) (num_of_Z 0))).
Proof.
  split.
  - apply (query_of_all_unknown stump_after_leaves [NaN]
             (num_of_Z 1) (num_of_Z 0) []);
      [repeat constructor|reflexivity..].
  - apply (query_of_all_unknown single_leaf_annotations [NaN]
             (num_of_Z 0) (num_of_Z 1) []);
      [repeat constructor|reflexivity..].
Defined.

(** ** More on [all_split_values] *)

Section CatalogEdges.
Context {split_t : Type} `{Split split_t}.

Lemma collect_split_no_timeout (types : list nat) (values : list (list num_t))
    (n : node split_t) :
  collect_split types values n ≠ OutOfFuel.
Proof.
  unfold collect_split, at_index, assign.
  destruct (is_a_leaf n); [done|].
  destruct (types !! _); [|done]. cbn [mbind outcome_bind].
  destruct (values !! _); [|done]. cbn [mbind outcome_bind].
  destruct (_ && _); by case_decide.
Qed.

Lemma collect_all_faults (types : list nat) (the_nodes : list (node split_t))
    (values : list (list num_t)) :
  Exists (λ n, is_a_leaf n = false ∧
               (length types ≤ get_feature_index (get_split n))%nat)
         the_nodes →
  for_each (collect_split types) values the_nodes = Fault.
Proof.
  intros Hbad. revert values.
  induction Hbad as [n the_nodes [Hleaf Hf]|n the_nodes _ IH]; intros values.
  - cbn [for_each]. unfold collect_split, at_index. rewrite Hleaf.
    by rewrite (proj2 (lookup_ge_None _ _) Hf).
  - cbn [for_each].
    pose proof (collect_split_no_timeout types values n) as Hbody.
    destruct (collect_split types values n); [apply IH|done..].
Qed.

Lemma query_ignores_catalog (values : list (list num_t)) (self : fanova_state)
    (feature_vector : list num_t) :
  marginalized_mean_prediction (set_split_values values self) feature_vector
    = marginalized_mean_prediction self feature_vector.
Proof. by rewrite !query_root_only. Qed.

End CatalogEdges.

(** X8.  On an object whose catalog is still empty, the call faults when
    some internal node splits a feature that [types] has no entry for:
    lines 240-245 index [types] and the catalog by that feature. *)
Theorem all_split_values_feature_out_of_range {split_t : Type} `{Split split_t}
    (types : list nat) (the_nodes : list (node split_t)) (self : fanova_state) :
  split_values self = [] →
  Exists (λ n, is_a_leaf n = false ∧
               (length types ≤ get_feature_index (get_split n))%nat)
         the_nodes →
  all_split_values types the_nodes self = Fault.
Proof.
  intros Hfresh Hbad. unfold all_split_values. rewrite Hfresh. simpl.
  by rewrite (collect_all_faults types the_nodes _ Hbad).
Qed.

Lemma all_split_values_feature_out_of_range_witness :
  all_split_values [] stump fresh = Fault.
Proof.
  apply (all_split_values_feature_out_of_range [] stump fresh).
  - reflexivity.
  - apply Exists_cons_hd. split; [reflexivity|simpl; lia].
Defined.

(** X9.  On a first call in range, the entry of a categorical feature
    that internal nodes split on holds the category range [0..k-1] and,
    on top of it, the split values of every such node but the first: it
    is a permutation of the two together. *)
Theorem categorical_feature_split_again {split_t : Type} `{Split split_t}
    (types : list nat) (the_nodes : list (node split_t)) (self : fanova_state)
    (f k : nat) (first : num_t) (later : list num_t) :
  split_values self = [] →
  Forall (λ n, is_a_leaf n = false →
               (get_feature_index (get_split n) < length types)%nat) the_nodes →
  types !! f = Some (S k) →
  scan_thresholds the_nodes f = first :: later →
  ∃ catalog entry,
    all_split_values types the_nodes self
      = Done (catalog, set_split_values catalog self) ∧
    catalog !! f = Some entry ∧
    entry ≡ₚ iota (S k) ++ later ∧
    length entry = (S k + length later)%nat.
Proof.
  intros Hfresh Hall Htype Hscan.
  exists (std_sort <$> scanned types the_nodes),
         (std_sort (iota (S k) ++ later)).
  split; [by apply all_split_values_first_call|].
  split.
  - rewrite list_lookup_fmap, (scanned_lookup _ _ _ _ Htype), Hscan. done.
  - split; [apply std_sort_permutation|].
    rewrite std_sort_permutation, length_app. unfold iota.
    by rewrite length_fmap, length_seq.
Qed.

Lemma categorical_feature_split_again_witness :
  ∃ catalog entry,
    all_split_values [2%nat] twice_split fresh
      = Done (catalog, set_split_values catalog fresh) ∧
    catalog !! 0%nat = Some entry ∧
    entry ≡ₚ iota 2 ++ [NaN] ∧
    length entry = (2 + length [NaN])%nat.
Proof.
  apply (categorical_feature_split_again [2%nat] twice_split fresh 0 1 NaN [NaN]).
  - reflexivity.
  - repeat constructor; simpl; intros; (lia || discriminate).
  - reflexivity.
  - reflexivity.
Defined.

(** X10.  A call of [all_split_values] that returns has written the
    catalog and nothing else: the value returned is the catalog stored,
    the three annotation arrays are as before, and every query answers
    as before. *)
Theorem all_split_values_keeps_annotations {split_t : Type} `{Split split_t}
    (types : list nat) (the_nodes : list (node split_t)) (self : fanova_state) :
  match all_split_values types the_nodes self with
  | Done (catalog, self') =>
      split_values self' = catalog ∧
      subspace_sizes self' = subspace_sizes self ∧
      marginal_prediction self' = marginal_prediction self ∧
      active_variables self' = active_variables self ∧
      ∀ feature_vector,
        marginalized_mean_prediction self' feature_vector
          = marginalized_mean_prediction self feature_vector
  | _ => True
  end.
Proof.
  unfold all_split_values. case_bool_decide; [|done].
  destruct (for_each _ _ _) as [values| |]; cbn [mbind outcome_bind]; [|done..].
  repeat split; intros; apply query_ignores_catalog.
Qed.

(** ** Running the down pass again *)

Section Again.
Context {split_t : Type} `{Split split_t}.
Variables (pcs : subspace_t) (types : list nat).
Variable the_nodes : list (node split_t).

Lemma resize_same {A} (d : A) (v : list A) : resize (length v) d v = v.
Proof.
  unfold resize. rewrite firstn_all, Nat.sub_diag. simpl. apply app_nil_r.
Qed.

(** Two runs over the same table write the same sizes and vectors,
    whatever the two objects held. *)
Lemma down_pass_range_agree (a m : nat) table self1 self2 table' self1' :
  sized the_nodes (table, self1) → sized the_nodes (table, self2) →
  for_each (down_pass_body pcs types the_nodes) (table, self1) (seq a m)
    = Done (table', self1') →
  ∃ self2',
    for_each (down_pass_body pcs types the_nodes) (table, self2) (seq a m)
      = Done (table', self2') ∧
    (∀ i, (a ≤ i < a + m)%nat →
          subspace_sizes self2' !! i = subspace_sizes self1' !! i ∧
          active_variables self2' !! i = active_variables self1' !! i).
Proof.
  revert a table self1 self2.
  induction m as [|m IH]; intros a table self1 self2 Hsized1 Hsized2 Hrun.
  { injection Hrun as <- <-. exists self2. split; [done|]. intros i Hi. lia. }
  cbn [seq for_each] in Hrun |- *.
  apply bind_Done in Hrun. destruct Hrun as ([table1 self1a] & Hbody1 & Hrest1).
  pose proof Hbody1 as Heffect1. apply down_pass_body_effect in Heffect1.
  destruct Heffect1 as (n & own & Hn & Hown & H0 & H1 & Htab1 & Hsz1 & Hav1 & _).
  pose proof (down_pass_body_defined pcs types the_nodes (table, self2) a n
                Hsized2 Hn) as Hbody2.
  destruct Hsized1 as (Hlen & Hlens1 & Hlenv1). simpl in Hlen, Hlens1, Hlenv1.
  rewrite bool_decide_eq_true_2 in Hbody2 by (unfold subspace_t in *; lia).
  destruct Hbody2 as ([table2 self2a] & Hbody2 & Hsized2a).
  rewrite Hbody2. cbn [mbind outcome_bind].
  pose proof Hbody2 as Heffect2. apply down_pass_body_effect in Heffect2.
  destruct Heffect2 as (n' & own' & Hn' & Hown' & _ & _ & Htab2 & Hsz2 & Hav2 & _).
  simpl in Htab1, Htab2, Hsz1, Hsz2, Hav1, Hav2. simplify_eq.
  assert (sized the_nodes
            (<[a:=[]]>
               (<[snd (get_children n):=snd (compute_subspaces (get_split n) pcs)]>
                  (<[fst (get_children n):=fst (compute_subspaces (get_split n) pcs)]>
                     table)), self1a)) as Hsized1a.
  { unfold sized. simpl. by rewrite Hsz1, Hav1, !length_insert. }
  destruct (IH (S a) _ self1a self2a Hsized1a Hsized2a Hrest1)
    as (self2' & Hrest2 & Hagree).
  exists self2'. split; [done|]. intros i Hi.
  destruct (decide (i = a)) as [->|Hne]; [|apply Hagree; lia].
  pose proof (down_pass_range_sizes _ _ _ _ _ a _ _ Hrest1 ltac:(lia)) as Hs1.
  pose proof (down_pass_range_sizes _ _ _ _ _ a _ _ Hrest2 ltac:(lia)) as Hs2.
  pose proof (down_pass_indices_vars _ _ _ _ _ _ Hrest1) as [_ Hv1].
  pose proof (down_pass_indices_vars _ _ _ _ _ _ Hrest2) as [_ Hv2].
  assert (a ∉ seq (S a) m) as Hout by (rewrite elem_of_seq; lia).
  destruct (Hv1 a) as [_ Hv1a]. destruct (Hv2 a) as [_ Hv2a].
  simpl in *. rewrite Hs1, Hs2, (Hv1a Hout), (Hv2a Hout), Hsz1, Hsz2, Hav1, Hav2.
  destruct Hsized2 as (_ & Hlens2 & Hlenv2). simpl in Hlens2, Hlenv2.
  pose proof (lookup_lt_Some _ _ _ Hn) as Ha.
  rewrite !list_lookup_insert_eq by lia. done.
Qed.

End Again.

(** X11.  When lines 138-166 return on one object they return on every
    other object with the same table of domains, sizes and
    active-variable vectors, whatever the arrays of that object held; run
    again on the object they have just written, they leave it exactly as
    it is. *)
Theorem top_down_again {split_t : Type} `{Split split_t}
    (pcs : subspace_t) (types : list nat) (the_nodes : list (node split_t))
    (self self' : fanova_state) (table : list subspace_t) :
  top_down pcs types the_nodes self = Done (table, self') →
  (∀ other, ∃ other',
     top_down pcs types the_nodes other = Done (table, other') ∧
     subspace_sizes other' = subspace_sizes self' ∧
     active_variables other' = active_variables self') ∧
  top_down pcs types the_nodes self' = Done (table, self').
Proof.
  intros Hrun.
  destruct (top_down_keeps _ _ _ _ _ _ Hrun) as [Hpreds Hvalues].
  apply top_down_Done in Hrun. destruct Hrun as (Hlen & Hroot & Hpass).
  pose proof (down_pass_range_sized _ _ _ _ _ _ Hpass
                (setup_sized pcs the_nodes self)) as (_ & Hsizes & Hvars).
  simpl in Hsizes, Hvars.
  assert (∀ other, ∃ other',
            top_down pcs types the_nodes other = Done (table, other') ∧
            subspace_sizes other' = subspace_sizes self' ∧
            active_variables other' = active_variables self') as Hother.
  { intros other. unfold down_pass in Hpass.
    destruct (down_pass_range_agree pcs types the_nodes 0 (length the_nodes)
                _ _ _ _ _ (setup_sized pcs the_nodes self)
                (setup_sized pcs the_nodes other) Hpass)
      as (other' & Hrun' & Hagree).
    pose proof (down_pass_range_sized _ _ _ _ _ _ Hrun'
                  (setup_sized pcs the_nodes other)) as (_ & Hsizes' & Hvars').
    simpl in Hsizes', Hvars'.
    exists other'. split.
    - unfold top_down, precompute_setup, assign.
      rewrite decide_True, length_replicate, decide_True by done. exact Hrun'.
    - split; apply list_eq; intros i;
        (destruct (decide (i < length the_nodes)%nat) as [Hi|Hi];
         [by apply Hagree; lia|]);
        rewrite !(proj2 (lookup_ge_None _ _)); (done || lia). }
  split; [done|].
  destruct (Hother self') as (again & Hagain & Hsame_sizes & Hsame_vars).
  rewrite Hagain. do 2 f_equal.
  destruct (top_down_keeps _ _ _ _ _ _ Hagain) as [Hpreds' Hvalues'].
  destruct again, self'. simpl in *. subst.
  f_equal. rewrite <- (resize_length (length the_nodes) num_zero
                         (marginal_prediction self)) at 1.
  apply resize_same.
Qed.

Lemma top_down_again_witness :
  (∀ other, ∃ other',
     top_down unit_domain [0%nat] stump other = Done (stump_table, other') ∧
     subspace_sizes other' = subspace_sizes stump_after_down ∧
     active_variables other' = active_variables stump_after_down) ∧
  top_down unit_domain [0%nat] stump stump_after_down
    = Done (stump_table, stump_after_down).
Proof.
  apply (top_down_again unit_domain [0%nat] stump fresh stump_after_down
           stump_table).
  compute_done.
Defined.
